(** * sfx-player: a shallow embedding of [src/index.ts]

    The module keeps three module-level variables ([audioCache],
    [globalVolume], [muted]) and exports the class [SoundEffectsPlayer].
    Every method is embedded as a function on an explicit [world]: the
    module-level variables, the store of playable audio elements, the
    pending timers and the trace of calls made to the platform. *)

From Stdlib Require Import ZArith Lia SpecFloat.
From stdpp Require Import gmap strings list pretty.

Local Open Scope Z_scope.

(** ** Numbers

    A TypeScript [number] is an IEEE 754 binary64 value: [spec_float] at
    precision 53 and maximal exponent 1024, with its two zeros, its two
    infinities and NaN. *)
Module Num.

Definition number : Type := spec_float.

Definition prec : Z := 53.
Definition emax : Z := 1024.

(** A value is a binary64 number when its mantissa is canonical. *)
Definition is_binary64 (x : number) : bool := valid_binary prec emax x.

(** The literal of an integer. *)
Definition of_Z (z : Z) : number := binary_normalize prec emax z 0 false.

Definition zero : number := S754_zero false.
Definition one : number := Eval cbv in of_Z 1.
Definition thousand : number := Eval cbv in of_Z 1000.

(** The literal [0.7], that is 0x1.6666666666666p-1. *)
Definition seven_tenths : number := S754_finite false 6305039478318694 (-53).

(** [x * y] *)
Definition mul (x y : number) : number := SFmul prec emax x y.

Definition is_nan (x : number) : bool :=
  match x with S754_nan => true | _ => false end.

(** [x < y], [x <= y], [x == y] on numbers: false as soon as one is NaN. *)
Definition ltb (x y : number) : bool := SFltb x y.
Definition leb (x y : number) : bool := SFleb x y.
Definition eqb (x y : number) : bool := SFeqb x y.

(** The order [Math.min] and [Math.max] compare with: [<], except that
    -0 is below +0. *)
Definition below (x y : number) : bool :=
  match x, y with
  | S754_zero sx, S754_zero sy => sx && negb sy
  | _, _ => ltb x y
  end.

(** [Math.min(x, y)] and [Math.max(x, y)]: NaN when an argument is NaN. *)
Definition Math_min (x y : number) : number :=
  if is_nan x || is_nan y then S754_nan
  else if below y x then y else x.

Definition Math_max (x y : number) : number :=
  if is_nan x || is_nan y then S754_nan
  else if below x y then y else x.

(** [Math.floor(x)]: a value with a non-negative exponent is an integer
    already; otherwise the mantissa is shifted right, rounding down. *)
Definition Math_floor (x : number) : number :=
  match x with
  | S754_finite s m e =>
      if 0 <=? e then x
      else of_Z (Z.shiftr (cond_Zopp s (Zpos m)) (- e))
  | _ => x
  end.

(** The integer a number is, when it is one (both zeros are 0). *)
Definition to_integer (x : number) : option Z :=
  match x with
  | S754_zero _ => Some 0
  | S754_finite s m e =>
      if 0 <=? e then Some (cond_Zopp s (Zpos m * 2 ^ e))
      else if Zpos m mod 2 ^ (- e) =? 0
           then Some (cond_Zopp s (Zpos m / 2 ^ (- e)))
           else None
  | _ => None
  end.

(** [a[x]] for an array [a] and a number [x]: the element when [x] is an
    integer inside the bounds, [undefined] (here [None]) otherwise. *)
Definition array_get {A : Type} (a : list A) (x : number) : option A :=
  match to_integer x with
  | Some z => if 0 <=? z then a !! Z.to_nat z else None
  | None => None
  end.

(** [a.length] as a number. *)
Definition array_length {A : Type} (a : list A) : number :=
  of_Z (Z.of_nat (length a)).

(** What [Math.random()] may return: a binary64 value in [0, 1). *)
Definition is_random (r : number) : Prop :=
  is_binary64 r = true /\ leb zero r = true /\ ltb r one = true.

(** Equality of numbers as [Array.prototype.includes] sees it
    (SameValueZero): numerically equal, or both NaN. *)
Definition same_value_zero (x y : number) : Prop :=
  eqb x y = true \/ (is_nan x = true /\ is_nan y = true).

(** [x] lies in the closed interval from [lo] to [hi]. *)
Definition within (lo hi x : number) : Prop :=
  leb lo x = true /\ leb x hi = true.

(** The mathematical clamp: [lo] below [lo], [hi] above [hi], the value
    itself in between. *)
Definition clamp (x lo hi : number) : number :=
  if ltb x lo then lo else if ltb hi x then hi else x.

End Num.
Import Num.

(** ** Audio elements, timers and the world *)

(** The fields of an [HTMLAudioElement] that the module reads or writes.
    [src] is kept as the string given to [new Audio]; read back from an
    element, the platform gives the address resolved against the
    document, which is not computed here: the statements leave the
    address of a playback instance open. [paused] is false once the
    platform has accepted [play()]. *)
Record HTMLAudioElement : Type := mkAudio {
  src : string;
  preload : string;
  volume : number;
  loop : bool;
  currentTime : number;
  paused : bool
}.

(** [new Audio(path)] *)
Definition new_Audio (path : string) : HTMLAudioElement :=
  {| src := path; preload := "auto"; volume := one; loop := false;
     currentTime := zero; paused := true |}.

Definition set_preload (v : string) (a : HTMLAudioElement) : HTMLAudioElement :=
  {| src := src a; preload := v; volume := volume a; loop := loop a;
     currentTime := currentTime a; paused := paused a |}.

Definition set_volume (v : number) (a : HTMLAudioElement) : HTMLAudioElement :=
  {| src := src a; preload := preload a; volume := v; loop := loop a;
     currentTime := currentTime a; paused := paused a |}.

Definition set_loop (v : bool) (a : HTMLAudioElement) : HTMLAudioElement :=
  {| src := src a; preload := preload a; volume := volume a; loop := v;
     currentTime := currentTime a; paused := paused a |}.

Definition set_currentTime (v : number) (a : HTMLAudioElement) : HTMLAudioElement :=
  {| src := src a; preload := preload a; volume := volume a; loop := loop a;
     currentTime := v; paused := paused a |}.

Definition set_paused (v : bool) (a : HTMLAudioElement) : HTMLAudioElement :=
  {| src := src a; preload := preload a; volume := volume a; loop := loop a;
     currentTime := currentTime a; paused := v |}.

(** A playback instance is shared by the caller, who receives it, and by
    the timer callbacks, which close over it: instances live in a store
    and are named by their address. *)
Definition ref : Type := nat.

(** [SoundSample] *)
Record SoundSample : Type := mkSample {
  start : number;
  duration : number
}.

(** The three arrow functions handed to [setTimeout], each with the
    variables it closes over. *)
Inductive callback : Type :=
| StartSound (soundInstance : ref) (key : string)
| StartSample (soundInstance : ref) (key : string) (randomSample : SoundSample)
| StopSample (soundInstance : ref).

Record timer : Type := mkTimer {
  handler : callback;
  delay : number
}.

(** Calls made to the platform, in the order they are made. *)
Inductive event : Type :=
| Constructed (path : string)
| Loaded (path : string)
| PlayIssued (instance : ref)
| Paused (instance : ref)
| Scheduled (t : timer)
| Warned (message : string)
| Errored (message : string).

(** [audioCache], [globalVolume] and [muted] are the module-level
    variables. The cached elements never leave the module and are held by
    value. [store] holds the playback instances, [timers] the callbacks
    given to [setTimeout] that have not run yet, [trace] the platform
    calls so far, and [rejecting] tells whether the platform refuses
    [play()] (an autoplay policy). *)
Record world : Type := mkWorld {
  audioCache : gmap string HTMLAudioElement;
  globalVolume : number;
  muted : bool;
  store : list HTMLAudioElement;
  timers : list timer;
  trace : list event;
  rejecting : bool
}.

(** The module as it is when first loaded. *)
Definition initial_world (rejects : bool) : world :=
  {| audioCache := ∅; globalVolume := seven_tenths; muted := false;
     store := []; timers := []; trace := []; rejecting := rejects |}.

Definition with_audioCache (c : gmap string HTMLAudioElement) (w : world) : world :=
  {| audioCache := c; globalVolume := globalVolume w; muted := muted w;
     store := store w; timers := timers w; trace := trace w;
     rejecting := rejecting w |}.

Definition with_globalVolume (v : number) (w : world) : world :=
  {| audioCache := audioCache w; globalVolume := v; muted := muted w;
     store := store w; timers := timers w; trace := trace w;
     rejecting := rejecting w |}.

Definition with_muted (b : bool) (w : world) : world :=
  {| audioCache := audioCache w; globalVolume := globalVolume w; muted := b;
     store := store w; timers := timers w; trace := trace w;
     rejecting := rejecting w |}.

Definition with_store (s : list HTMLAudioElement) (w : world) : world :=
  {| audioCache := audioCache w; globalVolume := globalVolume w;
     muted := muted w; store := s; timers := timers w; trace := trace w;
     rejecting := rejecting w |}.

Definition with_timers (ts : list timer) (w : world) : world :=
  {| audioCache := audioCache w; globalVolume := globalVolume w;
     muted := muted w; store := store w; timers := ts; trace := trace w;
     rejecting := rejecting w |}.

(** Appends one platform call to the trace. *)
Definition emit (e : event) (w : world) : world :=
  {| audioCache := audioCache w; globalVolume := globalVolume w;
     muted := muted w; store := store w; timers := timers w;
     trace := trace w ++ [e]; rejecting := rejecting w |}.

(** [new Audio(path)] for a playback instance: the element is placed in
    the store and its address returned. *)
Definition allocate (path : string) (w : world) : world * ref :=
  (with_store (store w ++ [new_Audio path]) (emit (Constructed path) w),
   length (store w)).

(** An assignment to a field of the instance at address [r]. *)
Definition assign (r : ref) (f : HTMLAudioElement -> HTMLAudioElement)
    (w : world) : world :=
  with_store (alter f r (store w)) w.

(** [setTimeout(handler, delay)] *)
Definition setTimeout (h : callback) (d : number) (w : world) : world :=
  let t := {| handler := h; delay := d |} in
  with_timers (timers w ++ [t]) (emit (Scheduled t) w).

(** [console.warn] and [console.error] *)
Definition console_warn (message : string) (w : world) : world :=
  emit (Warned message) w.

Definition console_error (message : string) (w : world) : world :=
  emit (Errored message) w.

(** The double quote character of the template literals. *)
Definition dq : string := String (Ascii.ascii_of_nat 34) EmptyString.

Definition not_found_message (key : string) : string :=
  "Sound " +:+ dq +:+ key +:+ dq +:+ " not found in audio cache".

Definition no_collection_message (key : string) : string :=
  "No sample collection registered for " +:+ dq +:+ key +:+ dq.

Definition play_error_message (key : string) : string :=
  "Error playing sound " +:+ dq +:+ key +:+ dq +:+ ":".

(** How a call ends: with a value, or with an exception thrown to the
    caller. The only exception the module can raise itself is the
    [TypeError] of reading a property of [undefined]. *)
Inductive exception : Type := TypeError.

Inductive completion (A : Type) : Type :=
| Returned (v : A)
| Thrown (e : exception).
Arguments Returned {A} v.
Arguments Thrown {A} e.

(** ** The class [SoundEffectsPlayer] *)

(** *** Plain objects used as maps

    [soundPaths] and [sampleCollections] are plain objects: a map of own
    entries, and behind it a prototype, [Object.prototype] for an object
    literal. The operator [in] and a property read both follow the
    prototype chain. *)

(** The string-keyed properties of [Object.prototype]. *)
Definition Object_prototype : list string :=
  [ "constructor"; "__defineGetter__"; "__defineSetter__";
    "hasOwnProperty"; "__lookupGetter__"; "__lookupSetter__";
    "isPrototypeOf"; "propertyIsEnumerable"; "toString"; "valueOf";
    "__proto__"; "toLocaleString" ].

(** The string-keyed properties of [Array.prototype]. *)
Definition Array_prototype : list string :=
  [ "length"; "constructor"; "at"; "concat"; "copyWithin"; "fill"; "find";
    "findIndex"; "findLast"; "findLastIndex"; "lastIndexOf"; "pop"; "push";
    "reverse"; "shift"; "unshift"; "slice"; "sort"; "splice"; "includes";
    "indexOf"; "join"; "keys"; "entries"; "values"; "forEach"; "filter";
    "flat"; "flatMap"; "map"; "every"; "some"; "reduce"; "reduceRight";
    "toLocaleString"; "toString"; "toReversed"; "toSorted"; "toSpliced";
    "with" ].

(** [key in object], for an object literal with the own entries [own]. *)
Definition has_property {A : Type} (own : gmap string A) (key : string)
    : bool :=
  bool_decide (is_Some (own !! key)) || bool_decide (key ∈ Object_prototype).

(** The text of an inherited value, which is what [new Audio] makes of
    it: the prototype object itself under ["__proto__"], a built-in
    function under the other names (printed as V8 prints it). *)
Definition inherited_text (key : string) : string :=
  if bool_decide (key = "__proto__") then "[object Object]"
  else if bool_decide (key = "constructor")
       then "function Object() { [native code] }"
       else "function " +:+ key +:+ "() { [native code] }".

(** [object[key]] handed to [new Audio], for a [key] that [in] finds: the
    own path, or else the text of the inherited value. *)
Definition property_text (own : gmap string string) (key : string) : string :=
  match own !! key with
  | Some path => path
  | None => inherited_text key
  end.

(** The two private fields. [sampleCollections] starts as an object
    literal; [collectionsPrototype] is the array that an assignment to
    its ["__proto__"] has made its prototype, if there was one. *)
Record SoundEffectsPlayer : Type := mkPlayer {
  soundPaths : gmap string string;
  sampleCollections : gmap string (list SoundSample);
  collectionsPrototype : option (list SoundSample)
}.

(** [key] is the canonical index of an element of [samples]. *)
Definition is_index (key : string) (samples : list SoundSample) : bool :=
  existsb (λ i, bool_decide (pretty i = key)) (seq 0 (length samples)).

(** What [this.sampleCollections[key]] finds on the prototype chain, for
    a key that is not an own entry. Under ["__proto__"] it is the
    prototype itself. Every other inherited value (a function, a number,
    a single sample, [Object.prototype]) has no element at any index and
    is selected from like the empty array. *)
Definition inherited_collection (this : SoundEffectsPlayer) (key : string)
    : option (list SoundSample) :=
  match collectionsPrototype this with
  | None =>
      if bool_decide (key ∈ Object_prototype) then Some [] else None
  | Some prototype =>
      if bool_decide (key = "__proto__") then Some prototype
      else if is_index key prototype
              || bool_decide (key ∈ Array_prototype)
              || bool_decide (key ∈ Object_prototype)
           then Some []
           else None
  end.

(** [this.sampleCollections[key]] when [key in this.sampleCollections]. *)
Definition registered (this : SoundEffectsPlayer) (key : string)
    : option (list SoundSample) :=
  match sampleCollections this !! key with
  | Some samples => Some samples
  | None => inherited_collection this key
  end.

(** [constructor(soundPaths, initialVolume = 0.7)] *)
Definition new_SoundEffectsPlayer (paths : gmap string string)
    (initialVolume : option number) (w : world) : world * SoundEffectsPlayer :=
  let initialVolume := default seven_tenths initialVolume in
  (with_globalVolume (Math_max zero (Math_min one initialVolume)) w,
   {| soundPaths := paths; sampleCollections := ∅;
      collectionsPrototype := None |}).

(** [registerSamples(key, samples)]: an assignment under ["__proto__"]
    reaches the setter of [Object.prototype] and replaces the prototype;
    under any other key it writes an own entry. *)
Definition registerSamples (this : SoundEffectsPlayer) (key : string)
    (samples : list SoundSample) : SoundEffectsPlayer :=
  if bool_decide (key = "__proto__")
  then {| soundPaths := soundPaths this;
          sampleCollections := sampleCollections this;
          collectionsPrototype := Some samples |}
  else {| soundPaths := soundPaths this;
          sampleCollections := <[key := samples]> (sampleCollections this);
          collectionsPrototype := collectionsPrototype this |}.

(** [preloadSound(key, path)] *)
Definition preloadSound (key path : string) (w : world) : world :=
  match audioCache w !! key with
  | None =>
      let w := emit (Constructed path) w in
      let audio := set_preload "auto" (new_Audio path) in
      let w := with_audioCache (<[key := audio]> (audioCache w)) w in
      emit (Loaded path) w
  | Some _ => w
  end.

(** [preloadAllSounds()]: one [preloadSound] per own entry of
    [soundPaths], which is what [Object.entries] lists. The entries are
    taken in the order of the map, where the object keeps the order of
    insertion; the keys being distinct, the cache that results is the
    same. *)
Definition preloadAllSounds (this : SoundEffectsPlayer) (w : world) : world :=
  foldl (λ w entry, preloadSound entry.1 entry.2 w) w
        (map_to_list (soundPaths this)).

(** [playSound(key, volume?, loop = false)]. The assignments to the
    fields of the instance are written as the code writes them; an
    [HTMLAudioElement] moreover refuses a [volume] outside [0, 1] and a
    [currentTime] that is not finite by throwing, which the statements
    that promise an instance exclude by hypothesis. *)
Definition playSound (this : SoundEffectsPlayer) (key : string)
    (volume : option number) (loop : option bool) (w : world)
    : world * option ref :=
  let loop := default false loop in
  if muted w then (w, None)
  else
    let w :=
      match audioCache w !! key with
      | None =>
          if has_property (soundPaths this) key
          then preloadSound key (property_text (soundPaths this) key) w
          else w
      | Some _ => w
      end in
    match audioCache w !! key with
    | Some audio =>
        let '(w, soundInstance) := allocate (src audio) w in
        let w := assign soundInstance
                   (set_volume (default (globalVolume w) volume)) w in
        let w := assign soundInstance (set_loop loop) w in
        let w := setTimeout (StartSound soundInstance key) zero w in
        (w, Some soundInstance)
    | None => (console_warn (not_found_message key) w, None)
    end.

(** [playSoundSample(key, samples, volume?)]; [random] is the value that
    [Math.random()] returns when the call reaches it. *)
Definition playSoundSample (this : SoundEffectsPlayer) (key : string)
    (samples : list SoundSample) (volume : option number) (random : number)
    (w : world) : world * completion (option ref) :=
  if muted w then (w, Returned None)
  else
    let w :=
      match audioCache w !! key with
      | None =>
          if has_property (soundPaths this) key
          then preloadSound key (property_text (soundPaths this) key) w
          else w
      | Some _ => w
      end in
    match audioCache w !! key with
    | Some audio =>
        let '(w, soundInstance) := allocate (src audio) w in
        let w := assign soundInstance
                   (set_volume (default (globalVolume w) volume)) w in
        match array_get samples
                (Math_floor (mul random (array_length samples))) with
        | Some randomSample =>
            let w := assign soundInstance
                       (set_currentTime (start randomSample)) w in
            let w := setTimeout (StartSample soundInstance key randomSample)
                       zero w in
            (w, Returned (Some soundInstance))
        | None => (w, Thrown TypeError)
        end
    | None => (console_warn (not_found_message key) w, Returned None)
    end.

(** [playRegisteredSample(key, volume?)] *)
Definition playRegisteredSample (this : SoundEffectsPlayer) (key : string)
    (volume : option number) (random : number) (w : world)
    : world * completion (option ref) :=
  match registered this key with
  | Some samples => playSoundSample this key samples volume random w
  | None => (console_warn (no_collection_message key) w, Returned None)
  end.

(** [stopSound(audio)]: the method and the exported function have the
    same body; a falsy argument is [None]. *)
Definition stopSound (audio : option ref) (w : world) : world :=
  match audio with
  | Some r =>
      let w := assign r (set_paused true) (emit (Paused r) w) in
      assign r (set_currentTime zero) w
  | None => w
  end.

(** [setVolume(volume)], [getVolume()], [setMuted(isMuted)], [isMuted()] *)
Definition setVolume (volume : number) (w : world) : world :=
  with_globalVolume (Math_max zero (Math_min one volume)) w.

Definition getVolume (w : world) : number := globalVolume w.

Definition setMuted (isMuted : bool) (w : world) : world :=
  with_muted isMuted w.

Definition isMuted (w : world) : bool := muted w.

(** ** Timer callbacks *)

(** [soundInstance.play()]: the call is issued; the element starts
    unless the platform rejects the request. *)
Definition play (soundInstance : ref) (w : world) : world :=
  let w := emit (PlayIssued soundInstance) w in
  if rejecting w then w else assign soundInstance (set_paused false) w.

(** The body of a callback. The handler given to [catch] runs once the
    body is over, when [play()] was rejected. *)
Definition run_callback (cb : callback) (w : world) : world :=
  match cb with
  | StartSound soundInstance key =>
      let w := play soundInstance w in
      if rejecting w then console_error (play_error_message key) w else w
  | StartSample soundInstance key randomSample =>
      let w := play soundInstance w in
      let w := setTimeout (StopSample soundInstance)
                 (mul (duration randomSample) thousand) w in
      if rejecting w then console_error (play_error_message key) w else w
  | StopSample soundInstance => stopSound (Some soundInstance) w
  end.

(** The event loop runs the [n]-th pending timer and forgets it. *)
Definition fire (n : nat) (w : world) : world :=
  match timers w !! n with
  | Some t => run_callback (handler t) (with_timers (delete n (timers w)) w)
  | None => w
  end.

(** ** Calls as data *)

(** Every method of the class, with its arguments. *)
Inductive method : Type :=
| RegisterSamples (key : string) (samples : list SoundSample)
| PreloadSound (key path : string)
| PreloadAllSounds
| PlaySound (key : string) (volume : option number) (loop : option bool)
| PlaySoundSample (key : string) (samples : list SoundSample)
    (volume : option number) (random : number)
| PlayRegisteredSample (key : string) (volume : option number)
    (random : number)
| StopSound (audio : option ref)
| SetVolume (volume : number)
| GetVolume
| SetMuted (isMuted : bool)
| IsMuted.

(** The player and the world after a call. *)
Definition invoke (m : method) (this : SoundEffectsPlayer) (w : world)
    : SoundEffectsPlayer * world :=
  match m with
  | RegisterSamples key samples => (registerSamples this key samples, w)
  | PreloadSound key path => (this, preloadSound key path w)
  | PreloadAllSounds => (this, preloadAllSounds this w)
  | PlaySound key volume loop => (this, (playSound this key volume loop w).1)
  | PlaySoundSample key samples volume random =>
      (this, (playSoundSample this key samples volume random w).1)
  | PlayRegisteredSample key volume random =>
      (this, (playRegisteredSample this key volume random w).1)
  | StopSound audio => (this, stopSound audio w)
  | SetVolume volume => (this, setVolume volume w)
  | GetVolume => (this, w)
  | SetMuted isMuted => (this, setMuted isMuted w)
  | IsMuted => (this, w)
  end.

(** The two setters of the global playback policy. *)
Definition is_policy_setter (m : method) : bool :=
  match m with
  | SetVolume _ | SetMuted _ => true
  | _ => false
  end.

(** The global playback policy of a world. *)
Definition policy (w : world) : number * bool := (globalVolume w, muted w).

(** Whatever can happen to the module: a method is called on a player, a
    new player is constructed, or the event loop runs a pending timer. *)
Inductive step : Type :=
| Invoke (m : method)
| Construct (paths : gmap string string) (initialVolume : option number)
| Fire (n : nat).

Definition run (s : step) (this : SoundEffectsPlayer) (w : world)
    : SoundEffectsPlayer * world :=
  match s with
  | Invoke m => invoke m this w
  | Construct paths initialVolume =>
      let '(w, player) := new_SoundEffectsPlayer paths initialVolume w in
      (player, w)
  | Fire n => (this, fire n w)
  end.

(** The steps that assign [globalVolume] or [muted]. *)
Definition writes_policy (s : step) : bool :=
  match s with
  | Invoke m => is_policy_setter m
  | Construct _ _ => true
  | Fire _ => false
  end.

(** ** Vocabulary of the statements *)

(** The lazy load that opens [playSound] and [playSoundSample]. *)
Definition lazy_preload (this : SoundEffectsPlayer) (key : string)
    (w : world) : world :=
  match audioCache w !! key with
  | None =>
      if has_property (soundPaths this) key
      then preloadSound key (property_text (soundPaths this) key) w
      else w
  | Some _ => w
  end.

(** [samples[Math.floor(Math.random() * samples.length)]] *)
Definition select (samples : list SoundSample) (random : number)
    : option SoundSample :=
  array_get samples (Math_floor (mul random (array_length samples))).

(** The timers that a stretch of the trace has scheduled. *)
Definition scheduled (evs : list event) : list timer :=
  omap (λ e, match e with Scheduled t => Some t | _ => None end) evs.

(** The [play()] calls in a stretch of the trace. *)
Definition plays (evs : list event) : list ref :=
  omap (λ e, match e with PlayIssued r => Some r | _ => None end) evs.

(** The warnings in a stretch of the trace. *)
Definition warnings (evs : list event) : list string :=
  omap (λ e, match e with Warned s => Some s | _ => None end) evs.

(** The entries of the cache under one key. *)
Definition entries_for (key : string) (cache : gmap string HTMLAudioElement)
    : list (string * HTMLAudioElement) :=
  filter (λ entry, entry.1 = key) (map_to_list cache).

(** The deferred start of a sample and the deferred stop that follows. *)
Definition start_timer (i : ref) (key : string) (s : SoundSample) : timer :=
  {| handler := StartSample i key s; delay := zero |}.

Definition stop_timer (i : ref) (s : SoundSample) : timer :=
  {| handler := StopSample i; delay := mul (duration s) thousand |}.

(** What follows a sample call that went from [w] to [w'] and returned the
    instance [i]: the call leaves one new pending timer, the start; once
    the event loop runs it, [play()] has been issued and then the stop
    timer scheduled, with the duration of the selected sample times 1000
    as its delay; once the event loop runs that one, the instance is
    paused with its cursor at 0. *)
Definition sample_schedule (key : string) (samples : list SoundSample)
    (random : number) (w w' : world) (i : ref) : Prop :=
  ∃ randomSample : SoundSample,
    select samples random = Some randomSample ∧
    timers w' = timers w ++ [start_timer i key randomSample] ∧
    scheduled (drop (length (trace w)) (trace w'))
      = [start_timer i key randomSample] ∧
    let started := fire (length (timers w)) w' in
    (∃ rejection : list event,
        trace started
        = trace w' ++ [PlayIssued i; Scheduled (stop_timer i randomSample)]
            ++ rejection
        ∧ scheduled rejection = [] ∧ plays rejection = []) ∧
    timers started = timers w ++ [stop_timer i randomSample] ∧
    let stopped := fire (length (timers w)) started in
    timers stopped = timers w ∧
    ∃ a : HTMLAudioElement,
      store stopped !! i = Some a ∧ paused a = true ∧ currentTime a = zero.

(** ** A running example

    One configured sound, two samples of one second each, and the value
    0.5 drawn by [Math.random()]. *)
Definition demo_player : SoundEffectsPlayer :=
  {| soundPaths := {[ "a" := "a.mp3" ]}; sampleCollections := ∅;
     collectionsPrototype := None |}.

Definition demo_samples : list SoundSample :=
  [ {| start := zero; duration := one |};
    {| start := of_Z 2; duration := one |} ].

(** A sample on its own, for a collection of one. *)
Definition solo_sample : SoundSample :=
  {| start := of_Z 2; duration := one |}.

Definition one_half : number := S754_finite false 4503599627370496 (-53).

Definition five : number := Eval cbv in of_Z 5.

(** The world once the module is loaded and ["a"] preloaded. *)
Definition demo_world : world :=
  preloadSound "a" "a.mp3" (initial_world false).

(** The same world after [setVolume(1)], and the same world muted. *)
Definition loud_world : world := setVolume one demo_world.

Definition muted_world : world := setMuted true demo_world.

(** ** Vocabulary of the further properties *)

(** The instance a callback closes over. *)
Definition instance_of (cb : callback) : ref :=
  match cb with
  | StartSound i _ | StartSample i _ _ | StopSample i => i
  end.

(** Every pending timer refers to an instance that is in the store. *)
Definition timers_valid (w : world) : Prop :=
  ∀ t : timer,
    t ∈ timers w -> (instance_of (handler t) < length (store w))%nat.

(** The element that [preloadSound] puts in the cache for a path. *)
Definition preloaded (path : string) : HTMLAudioElement :=
  set_preload "auto" (new_Audio path).

(** The play functions find an element for the key: it is cached, or
    it has an entry of its own in [soundPaths] and the lazy load caches
    it. *)
Definition has_source (this : SoundEffectsPlayer) (key : string) (w : world)
    : bool :=
  bool_decide (is_Some (audioCache w !! key))
  || bool_decide (is_Some (soundPaths this !! key)).

(** A volume that the setter of an [HTMLAudioElement] accepts, and a
    cursor that it accepts. *)
Definition accepted_volume (v : number) : Prop := within zero one v.

Definition is_finite (x : number) : bool :=
  match x with
  | S754_zero _ | S754_finite _ _ _ => true
  | _ => false
  end.

(** The [console.error] reports in a stretch of the trace. *)
Definition errors (evs : list event) : list string :=
  omap (λ e, match e with Errored s => Some s | _ => None end) evs.

(** The deferred start of a full sound. *)
Definition start_sound_timer (i : ref) (key : string) : timer :=
  {| handler := StartSound i key; delay := zero |}.

(** What [stopSound] makes of an instance. *)
Definition stopped (a : HTMLAudioElement) : HTMLAudioElement :=
  set_currentTime zero (set_paused true a).

(** From [w] to [w'] nothing that existed was touched: instances, timers
    and trace were at most extended (by at most one instance), cache
    entries kept, the policy and the platform left alone. *)
Definition appends_only (w w' : world) : Prop :=
  store w `prefix_of` store w'
  ∧ (length (store w') <= S (length (store w)))%nat
  ∧ timers w `prefix_of` timers w'
  ∧ trace w `prefix_of` trace w'
  ∧ audioCache w ⊆ audioCache w'
  ∧ policy w' = policy w
  ∧ rejecting w' = rejecting w.

(** [rec] is what remains of [M] after [j] right shifts: the quotient,
    and a round bit that is set only if the remainder is at least half. *)
Definition shifted (M j : Z) (rec : shr_record) : Prop :=
  shr_m rec = M / 2 ^ j ∧ (shr_r rec = true -> 2 ^ j <= 2 * (M mod 2 ^ j)).

(** The running example once ["a"] has been played: one instance, its
    start pending. *)
Definition playing_world : world :=
  (playSound demo_player "a" None None demo_world).1.

(** ** Tactics *)

(** Unfolds the record updates of the world down to its fields. *)
Ltac fields :=
  cbn [audioCache globalVolume muted store timers trace rejecting
       with_audioCache with_globalVolume with_muted with_store with_timers
       emit allocate assign setTimeout console_warn console_error play
       fst snd policy] in *.

(** * Facts about numbers *)

Module NumFacts.

Lemma compare_antisym (x y : number) (c : comparison) :
  SFcompare x y = Some c -> SFcompare y x = Some (CompOpp c).
Proof.
  destruct x as [sx|sx| |sx mx ex], y as [sy|sy| |sy my ey]; cbn;
    try discriminate;
    try (intros [= <-]; repeat match goal with b : bool |- _ => destruct b end;
         reflexivity).
  intros [= <-]. f_equal.
  rewrite (Z.compare_antisym ex ey), !Pos.compare_cont_spec.
  cbn [Pos.switch_Eq]. rewrite (Pos.compare_antisym mx my).
  destruct sx, sy, (ex ?= ey), (mx ?= my)%positive; reflexivity.
Qed.

Lemma compare_refl (x : number) : is_nan x = false -> SFcompare x x = Some Eq.
Proof.
  destruct x as [s|s| |s m e]; cbn; try discriminate; intros _.
  - reflexivity.
  - by destruct s.
  - rewrite Z.compare_refl, Pos.compare_cont_refl. by destruct s.
Qed.

Lemma bounded_inv (m : positive) (e : Z) :
  bounded prec emax m e = true ->
  Z.max (Zpos (digits2_pos m) + e - 53) (-1074) = e /\ e <= 971.
Proof.
  unfold bounded, canonical_mantissa, fexp, SpecFloat.emin, prec, emax.
  intros H. apply andb_prop in H as [H1 H2].
  apply Z.eqb_eq in H1. apply Z.leb_le in H2. split; [exact H1 | exact H2].
Qed.

(** A canonical mantissa needs no shift. *)
Lemma shr_fexp_canonical (m : positive) (e : Z) :
  bounded prec emax m e = true ->
  shr_fexp prec emax (Zpos m) e loc_Exact =
  ({| shr_m := Zpos m; shr_r := false; shr_s := false |}, e).
Proof.
  intros H. apply bounded_inv in H as [H _].
  unfold shr_fexp, fexp, SpecFloat.emin, prec, emax.
  cbn [Zdigits2 shr_record_of_loc].
  replace (Z.max (Zpos (digits2_pos m) + e - 53) (3 - 1024 - 53) - e)
    with 0 by lia.
  reflexivity.
Qed.

(** The product of a canonical mantissa with that of [one] is shifted
    back by 52 bits, all of them zero. *)
Lemma shr_fexp_times_one (m : positive) (e : Z) :
  bounded prec emax m e = true ->
  shr_fexp prec emax (Zpos (m * 4503599627370496)) (e + -52) loc_Exact =
  ({| shr_m := Zpos m; shr_r := false; shr_s := false |}, e).
Proof.
  intros H. apply bounded_inv in H as [H _].
  rewrite Pos.mul_comm.
  unfold shr_fexp, fexp, SpecFloat.emin, prec, emax.
  cbn [Zdigits2 shr_record_of_loc].
  let t := eval cbv in (4503599627370496 * m)%positive in
  change (4503599627370496 * m)%positive with t.
  cbn [digits2_pos]. rewrite !Pos2Z.inj_succ.
  match goal with |- shr _ _ ?n = _ => replace n with 52 by lia end.
  unfold shr. cbn [iter_pos shr_1 orb]. f_equal. lia.
Qed.

(** Multiplying a binary64 value by 1 is exact. *)
Lemma mul_one_r (x : number) : is_binary64 x = true -> mul x one = x.
Proof.
  destruct x as [s|s| |s m e]; cbn; intros H.
  - by rewrite xorb_false_r.
  - by rewrite xorb_false_r.
  - done.
  - unfold binary_round_aux.
    change (shr_fexp 53 1024) with (shr_fexp prec emax).
    rewrite (shr_fexp_times_one m e H).
    cbn [shr_m loc_of_shr_record round_nearest_even].
    rewrite (shr_fexp_canonical m e H). cbn [shr_m].
    apply bounded_inv in H as [_ H]. rewrite xorb_false_r.
    match goal with
    | |- context [e <=? ?b] => replace (e <=? b) with true; [done |]
    end.
    symmetry. apply Z.leb_le. unfold emax, prec. lia.
Qed.

Lemma digits2_pos_bound (m : positive) : Zpos m < 2 ^ Zpos (digits2_pos m).
Proof.
  induction m as [m IH|m IH|]; cbn [digits2_pos];
    rewrite ?Pos2Z.inj_succ, ?Z.pow_succ_r by lia; lia.
Qed.
(** A binary64 value in [0, 1) has floor 0. *)
Lemma floor_of_random (r : number) :
  is_random r -> to_integer (Math_floor r) = Some 0.
Proof.
  intros (Hv & H0 & H1). destruct r as [s|s| |s m e].
  - reflexivity.
  - by destruct s.
  - done.
  - destruct s; [done |]. apply bounded_inv in Hv as [Hc _].
    unfold ltb, SFltb, one in H1. cbn [SFcompare] in H1.
    assert (e < 0 /\ Zpos m < 2 ^ (- e)) as [He Hm].
    { destruct (Z.compare_spec e (-52)) as [-> |Hlt|Hgt]; try done.
      - rewrite Pos.compare_cont_spec in H1. cbn [Pos.switch_Eq] in H1.
        destruct (Pos.compare_spec m 4503599627370496); try done; split; lia.
      - split; [lia |]. pose proof (digits2_pos_bound m) as Hd.
        assert (Zpos (digits2_pos m) <= 53) by lia.
        eapply Z.lt_le_trans; [exact Hd |].
        apply Z.pow_le_mono_r; lia. }
    unfold Math_floor.
    destruct (Z.leb_spec 0 e); [lia |]. cbn [cond_Zopp].
    rewrite Z.shiftr_div_pow2, Z.div_small by lia. reflexivity.
Qed.
(** [Math.max(0, Math.min(1, v))] is the clamp of [v] to [0, 1], up to
    the sign of a zero. *)
Lemma clamp_unit_interval (v : number) :
  same_value_zero (Math_max zero (Math_min one v)) (clamp v zero one).
Proof.
  unfold same_value_zero.
  destruct v as [s|s| |s m e].
  - left. by destruct s.
  - left. by destruct s.
  - right. done.
  - left. destruct s; [done |].
    set (v := S754_finite false m e).
    assert (Math_min one v = if ltb v one then v else one) as -> by reflexivity.
    assert (clamp v zero one = if ltb one v then one else v) as -> by reflexivity.
    assert (Math_max zero v = v) as Hv by reflexivity.
    assert (Math_max zero one = one) as H1 by reflexivity.
    pose proof (compare_refl v eq_refl) as Hr.
    unfold ltb, SFltb, eqb, SFeqb.
    destruct (SFcompare v one) as [c|] eqn:Hc; [| discriminate Hc].
    apply compare_antisym in Hc as Hc'. rewrite Hc'.
    destruct c; cbn [CompOpp]; rewrite ?Hv, ?H1, ?Hc', ?Hr; reflexivity.
Qed.

(** Unless [v] is NaN, [Math.max(0, Math.min(1, v))] lies in [0, 1]. *)
Lemma clamp_within (v : number) :
  is_nan v = false -> within zero one (Math_max zero (Math_min one v)).
Proof.
  unfold within. destruct v as [s|s| |s m e]; intros Hn.
  - by destruct s.
  - by destruct s.
  - done.
  - destruct s; [done |].
    set (v := S754_finite false m e).
    assert (Math_min one v = if ltb v one then v else one) as -> by reflexivity.
    assert (Math_max zero v = v) as Hv by reflexivity.
    assert (Math_max zero one = one) as H1 by reflexivity.
    assert (leb zero v = true) as Hz by reflexivity.
    unfold ltb, leb, SFltb, SFleb in *.
    destruct (SFcompare v one) as [[]|] eqn:Hc;
      rewrite ?Hv, ?H1, ?Hc; done.
Qed.

End NumFacts.
Import NumFacts.

(** * Facts about the world *)

Lemma preloadSound_cached (key path : string) (w : world) :
  is_Some (audioCache w !! key) -> preloadSound key path w = w.
Proof. intros [a Ha]. unfold preloadSound. by rewrite Ha. Qed.

Lemma preloadSound_caches (key path : string) (w : world) :
  is_Some (audioCache (preloadSound key path w) !! key).
Proof.
  unfold preloadSound. destruct (audioCache w !! key) as [a|] eqn:Ha.
  - by rewrite Ha.
  - fields. rewrite lookup_insert_eq. by eexists.
Qed.

(** What [preloadSound] leaves alone, and what it adds to the trace. *)
Lemma preloadSound_frame (key path : string) (w : world) :
  let w' := preloadSound key path w in
  policy w' = policy w /\ store w' = store w /\ timers w' = timers w /\
  rejecting w' = rejecting w /\
  ∃ evs, trace w' = trace w ++ evs /\
         scheduled evs = [] /\ plays evs = [] /\ warnings evs = [].
Proof.
  unfold preloadSound. destruct (audioCache w !! key); fields.
  - repeat split. exists []. by rewrite app_nil_r.
  - repeat split. rewrite <- app_assoc. by eexists.
Qed.

Lemma lazy_preload_frame (this : SoundEffectsPlayer) (key : string) (w : world) :
  let w' := lazy_preload this key w in
  policy w' = policy w /\ store w' = store w /\ timers w' = timers w /\
  rejecting w' = rejecting w /\
  ∃ evs, trace w' = trace w ++ evs /\
         scheduled evs = [] /\ plays evs = [] /\ warnings evs = [].
Proof.
  unfold lazy_preload.
  destruct (audioCache w !! key);
    [| destruct (has_property (soundPaths this) key)];
    try apply preloadSound_frame;
    repeat split; exists []; by rewrite app_nil_r.
Qed.

Lemma preloadAllSounds_policy (this : SoundEffectsPlayer) (w : world) :
  policy (preloadAllSounds this w) = policy w.
Proof.
  unfold preloadAllSounds.
  generalize (map_to_list (soundPaths this)) as entries. intros entries.
  revert w. induction entries as [|entry entries IH]; intros w; [done |].
  cbn [foldl]. rewrite IH. apply preloadSound_frame.
Qed.

Section LastElement.
Context {A : Type}.
Implicit Types (l : list A) (a : A).

(** The instance allocated last sits at the end of the store. *)
Lemma alter_last (f : A -> A) l a :
  alter f (length l) (l ++ [a]) = l ++ [f a].
Proof. induction l as [|x l IH]; [done |]. cbn. by rewrite IH. Qed.

Lemma lookup_last l a : (l ++ [a]) !! length l = Some a.
Proof. induction l as [|x l IH]; [done |]. exact IH. Qed.

Lemma delete_last l a : delete (length l) (l ++ [a]) = l.
Proof. induction l as [|x l IH]; [done |]. cbn. f_equal. exact IH. Qed.

(** A list without duplicates whose elements all equal [a] is [[a]]. *)
Lemma NoDup_all_equal a l :
  NoDup l -> a ∈ l -> (∀ y, y ∈ l -> y = a) -> l = [a].
Proof.
  intros Hnd Hin Hall.
  destruct l as [|y l]; [by apply elem_of_nil in Hin |].
  assert (y = a) as -> by (apply Hall; left).
  destruct l as [|z l]; [done |].
  assert (z = a) as -> by (apply Hall; right; left).
  apply NoDup_cons in Hnd as [Hnotin _]. exfalso. apply Hnotin. left.
Qed.
End LastElement.

(** A call of [playSoundSample] that returns an instance took the path
    through the selection of a sample. *)
Lemma playSoundSample_returned (this : SoundEffectsPlayer) (key : string)
    (samples : list SoundSample) (volume : option number) (random : number)
    (w w' : world) (i : ref) :
  playSoundSample this key samples volume random w = (w', Returned (Some i)) ->
  ∃ (audio : HTMLAudioElement) (randomSample : SoundSample),
    let w1 := lazy_preload this key w in
    muted w = false ∧
    audioCache w1 !! key = Some audio ∧
    select samples random = Some randomSample ∧
    i = length (store w) ∧
    w' = setTimeout (StartSample i key randomSample) zero
           (assign i (set_currentTime (start randomSample))
              (assign i (set_volume (default (globalVolume w1) volume))
                 (allocate (src audio) w1).1)).
Proof.
  unfold playSoundSample. fold (lazy_preload this key w).
  fold (select samples random).
  destruct (lazy_preload_frame this key w) as (_ & Hs & _).
  destruct (muted w); [discriminate |].
  destruct (audioCache (lazy_preload this key w) !! key) as [audio|];
    [| discriminate].
  cbn [allocate]. destruct (select samples random) as [randomSample|];
    [| discriminate].
  intros [= <- <-]. exists audio, randomSample. cbn zeta.
  rewrite <- Hs. done.
Qed.

Lemma fire_last (w : world) (ts : list timer) (t : timer) :
  timers w = ts ++ [t] ->
  fire (length ts) w = run_callback (handler t) (with_timers ts w).
Proof.
  intros H. unfold fire. by rewrite H, lookup_last, delete_last.
Qed.

Lemma scheduled_app (l1 l2 : list event) :
  scheduled (l1 ++ l2) = scheduled l1 ++ scheduled l2.
Proof. apply omap_app. Qed.

Lemma playRegisteredSample_registered (this : SoundEffectsPlayer)
    (key : string) (samples : list SoundSample) (volume : option number)
    (random : number) (w : world) :
  sampleCollections this !! key = Some samples ->
  playRegisteredSample this key volume random w
  = playSoundSample this key samples volume random w.
Proof. intros H. unfold playRegisteredSample, registered. by rewrite H. Qed.

(** With one sample to choose from, that sample is chosen. *)
Lemma select_singleton (s : SoundSample) (random : number) :
  is_random random -> select [s] random = Some s.
Proof.
  intros Hr. unfold select, array_get.
  change (array_length [s]) with one.
  rewrite mul_one_r by apply Hr.
  by rewrite (floor_of_random random Hr).
Qed.

(** With no sample to choose from, the selection is [undefined]. *)
Lemma select_empty (random : number) : select [] random = None.
Proof.
  unfold select, array_get.
  destruct (to_integer _) as [z|]; [| done]. by destruct (0 <=? z).
Qed.

(** The value 0.5 is one that [Math.random()] may return. *)
Lemma one_half_is_random : is_random one_half.
Proof. repeat split. Defined.

Lemma entries_for_cached (key : string) (a : HTMLAudioElement)
    (cache : gmap string HTMLAudioElement) :
  cache !! key = Some a -> entries_for key cache = [(key, a)].
Proof.
  intros H. unfold entries_for. apply NoDup_all_equal.
  - apply NoDup_filter, NoDup_map_to_list.
  - apply list_elem_of_filter. split; [done |]. by apply elem_of_map_to_list.
  - intros [k v] [Hk Hin]%list_elem_of_filter. cbn in Hk. subst k.
    apply elem_of_map_to_list in Hin. congruence.
Qed.

Lemma playSound_policy (this : SoundEffectsPlayer) (key : string)
    (volume : option number) (loop : option bool) (w : world) :
  policy (playSound this key volume loop w).1 = policy w.
Proof.
  unfold playSound. fold (lazy_preload this key w).
  destruct (lazy_preload_frame this key w) as (Hp & _).
  destruct (muted w); [reflexivity |].
  by destruct (audioCache (lazy_preload this key w) !! key).
Qed.

Lemma playSoundSample_policy (this : SoundEffectsPlayer) (key : string)
    (samples : list SoundSample) (volume : option number) (random : number)
    (w : world) :
  policy (playSoundSample this key samples volume random w).1 = policy w.
Proof.
  unfold playSoundSample. fold (lazy_preload this key w).
  fold (select samples random).
  destruct (lazy_preload_frame this key w) as (Hp & _).
  destruct (muted w); [reflexivity |].
  destruct (audioCache (lazy_preload this key w) !! key); [| done].
  cbn [allocate]. by destruct (select samples random).
Qed.

Lemma run_callback_policy (cb : callback) (w : world) :
  policy (run_callback cb w) = policy w.
Proof.
  destruct w as [c gv mu st tm tr rj]. by destruct cb, rj.
Qed.

(** What [setVolume] and the constructor store lies in [0, 1], unless
    the argument is NaN, which is stored as it is. *)
Lemma setVolume_within (v : number) (w : world) :
  is_nan v = false -> within zero one (globalVolume (setVolume v w)).
Proof. apply clamp_within. Qed.

Lemma constructor_within (paths : gmap string string)
    (initialVolume : option number) (w : world) :
  is_nan (default seven_tenths initialVolume) = false ->
  within zero one
    (globalVolume (new_SoundEffectsPlayer paths initialVolume w).1).
Proof. apply clamp_within. Qed.

Lemma setVolume_nan (w : world) :
  globalVolume (setVolume S754_nan w) = S754_nan.
Proof. reflexivity. Qed.

(** The instance that [playSound] returns carries the override when one
    is given, the global volume otherwise, and the loop flag. *)
Lemma playSound_assigns (this : SoundEffectsPlayer) (key : string)
    (volume : option number) (loop : option bool) (w w' : world) (i : ref) :
  playSound this key volume loop w = (w', Some i) ->
  ∃ audio : HTMLAudioElement,
    audioCache (lazy_preload this key w) !! key = Some audio
    ∧ store w' !! i
      = Some (set_loop (default false loop)
                (set_volume (default (globalVolume w) volume)
                   (new_Audio (src audio)))).
Proof.
  unfold playSound. fold (lazy_preload this key w).
  destruct (lazy_preload_frame this key w) as (Hp & Hst & _).
  destruct (muted w); [discriminate |].
  destruct (audioCache (lazy_preload this key w) !! key) as [audio|];
    [| discriminate].
  intros [= <- <-]. exists audio. split; [reflexivity |].
  injection Hp as Hgv _. fields. rewrite Hgv, !alter_last.
  apply lookup_last.
Qed.

(** With an empty array of samples, a call that reaches the selection
    throws, whatever [Math.random()] returns. *)
Lemma playSoundSample_empty (this : SoundEffectsPlayer) (key : string)
    (volume : option number) (random : number) (w : world) :
  muted w = false ->
  is_Some (audioCache (lazy_preload this key w) !! key) ->
  (playSoundSample this key [] volume random w).2 = Thrown TypeError.
Proof.
  intros Hm [audio Ha]. unfold playSoundSample.
  fold (lazy_preload this key w). fold (select [] random).
  rewrite Hm, Ha, select_empty. reflexivity.
Qed.

(** * The claims *)

(** C1. A call of [playSoundSample], direct or through
    [playRegisteredSample], that returns an instance leaves the start
    action as its one new timer; when that runs, [play()] is issued and
    only then the stop action is scheduled, with the selected sample's
    duration times 1000 as its delay; the stop action pauses the instance
    and puts its cursor back to 0. *)
Theorem sample_stop_follows_start (this : SoundEffectsPlayer) (key : string)
    (samples : list SoundSample) (volume : option number) (random : number)
    (w w' : world) (i : ref) :
  playSoundSample this key samples volume random w = (w', Returned (Some i))
  ∨ (sampleCollections this !! key = Some samples
     ∧ playRegisteredSample this key volume random w
       = (w', Returned (Some i))) ->
  sample_schedule key samples random w w' i.
Proof.
  intros H.
  assert (playSoundSample this key samples volume random w
          = (w', Returned (Some i))) as Hcall.
  { destruct H as [H|[Hreg H]]; [exact H |].
    by rewrite (playRegisteredSample_registered _ _ samples) in H. }
  clear H.
  apply playSoundSample_returned in Hcall
    as (audio & randomSample & _ & _ & Hsel & -> & ->).
  destruct (lazy_preload_frame this key w)
    as (_ & Hst & Htm & _ & evs & Htr & Hsch & _).
  destruct (lazy_preload this key w) as [c gv mu st tm tr rj].
  unfold sample_schedule. fields. subst st tm tr.
  exists randomSample. split; [exact Hsel |].
  split; [reflexivity |].
  split.
  { rewrite <- ?app_assoc, drop_app_length, !scheduled_app, Hsch. done. }
  cbn zeta.
  erewrite fire_last by reflexivity.
  cbn [handler start_timer run_callback].
  destruct rj; fields.
  - split; [exists [Errored (play_error_message key)];
            by rewrite <- !app_assoc |].
    split; [reflexivity |].
    erewrite fire_last by reflexivity.
    cbn [handler stop_timer run_callback stopSound]. fields.
    split; [reflexivity |].
    rewrite !alter_last, lookup_last. by eexists.
  - split; [exists []; by rewrite <- !app_assoc |].
    split; [reflexivity |].
    erewrite fire_last by reflexivity.
    cbn [handler stop_timer run_callback stopSound]. fields.
    split; [reflexivity |].
    rewrite !alter_last, lookup_last. by eexists.
Qed.

Lemma sample_stop_follows_start_witness :
  playSoundSample demo_player "a" demo_samples None one_half demo_world
  = ((playSoundSample demo_player "a" demo_samples None one_half
        demo_world).1, Returned (Some 0%nat))
  ∧ sample_schedule "a" demo_samples one_half demo_world
      (playSoundSample demo_player "a" demo_samples None one_half
         demo_world).1 0%nat.
Proof.
  split; [reflexivity |].
  apply (sample_stop_follows_start demo_player "a" demo_samples None one_half).
  left. reflexivity.
Defined.

(** C2, at a failing input. [playSound("a", 5)] and
    [playSoundSample("a", samples, 5)] on a cached sound assign the
    override 5 to the [volume] of the instance they return, and 5 is not
    in [0, 1]: the override is stored as given, where the constructor and
    [setVolume] clamp. *)
Example override_volume_unclamped :
  (playSound demo_player "a" (Some five) None demo_world).2 = Some 0%nat
  ∧ volume
      <$> store (playSound demo_player "a" (Some five) None demo_world).1
          !! 0%nat
    = Some five
  ∧ (playSoundSample demo_player "a" demo_samples (Some five) one_half
       demo_world).2
    = Returned (Some 0%nat)
  ∧ volume
      <$> store (playSoundSample demo_player "a" demo_samples (Some five)
                   one_half demo_world).1
          !! 0%nat
    = Some five
  ∧ leb five one = false
  ∧ globalVolume (setVolume five demo_world) = one.
Proof. repeat split; reflexivity. Qed.

(** C3, as stated, fails: constructing a second player with the default
    initial volume puts the global volume back to 0.7. *)
Lemma constructor_assigns_globalVolume :
  globalVolume loud_world = one
  ∧ policy (run (Construct ∅ None) demo_player loud_world).2
    ≠ policy loud_world.
Proof. split; [reflexivity | discriminate]. Qed.

(** C3, amended. Apart from [setVolume], [setMuted] and the constructor,
    every step (each other method, each timer callback) leaves the
    global volume and the mute flag as they were; the constructor assigns
    the clamped initial volume, 0.7 by default, and leaves the mute flag
    as it was. *)
Theorem policy_frame (s : step) (this : SoundEffectsPlayer) (w : world) :
  writes_policy s = false ->
  policy (run s this w).2 = policy w
  ∧ ∀ (paths : gmap string string) (initialVolume : option number),
      policy (run (Construct paths initialVolume) this w).2
      = (Math_max zero (Math_min one (default seven_tenths initialVolume)),
         muted w).
Proof.
  intros Hs. split; [| reflexivity]. revert Hs.
  destruct s as [m|paths v|n]; cbn [writes_policy run]; [| discriminate |].
  - destruct m; cbn [is_policy_setter invoke snd]; try discriminate;
      intros _; try reflexivity.
    + apply preloadSound_frame.
    + apply preloadAllSounds_policy.
    + apply playSound_policy.
    + apply playSoundSample_policy.
    + unfold playRegisteredSample.
      destruct (registered this key);
        [apply playSoundSample_policy | reflexivity].
    + by destruct audio.
  - intros _. unfold fire. cbn [snd].
    destruct (timers w !! n) as [t|]; [| reflexivity].
    rewrite run_callback_policy. reflexivity.
Qed.

Lemma policy_frame_witness :
  writes_policy (Invoke (PlaySound "a" None None)) = false
  ∧ policy (run (Invoke (PlaySound "a" None None)) demo_player demo_world).2
    = policy demo_world.
Proof.
  split; [reflexivity |].
  apply (policy_frame (Invoke (PlaySound "a" None None))). reflexivity.
Defined.

(** C4, at a failing input. With an empty array of samples and a cached
    sound, [playSoundSample] reads [samples[0]], which is [undefined], and
    the read of its [start] throws a [TypeError] to the caller: no error
    is reported and no empty result returned. The instance has been
    created by then, and no timer scheduled. *)
Example empty_samples_throw :
  (playSoundSample demo_player "a" [] None one_half demo_world).2
  = Thrown TypeError
  ∧ select [] one_half = None
  ∧ length (store (playSoundSample demo_player "a" [] None one_half
                     demo_world).1) = 1%nat
  ∧ warnings (trace (playSoundSample demo_player "a" [] None one_half
                       demo_world).1) = []
  ∧ timers (playSoundSample demo_player "a" [] None one_half demo_world).1
    = [].
Proof. repeat split; reflexivity. Qed.

(** C5. While muted, [playSound] and [playSoundSample] return no
    instance, whatever the key, and schedule nothing: the pending timers
    are the same and the trace records no call of [setTimeout]. *)
Theorem muted_play_schedules_nothing (this : SoundEffectsPlayer)
    (key : string) (samples : list SoundSample) (volume : option number)
    (loop : option bool) (random : number) (w : world) :
  muted w = true ->
  let played := playSound this key volume loop w in
  let sampled := playSoundSample this key samples volume random w in
  played.2 = None
  ∧ timers played.1 = timers w
  ∧ scheduled (drop (length (trace w)) (trace played.1)) = []
  ∧ sampled.2 = Returned None
  ∧ timers sampled.1 = timers w
  ∧ scheduled (drop (length (trace w)) (trace sampled.1)) = [].
Proof.
  intros Hm. unfold playSound, playSoundSample. rewrite Hm. cbn [fst snd].
  rewrite drop_all. done.
Qed.

Lemma muted_play_schedules_nothing_witness :
  muted muted_world = true
  ∧ (playSound demo_player "a" None None muted_world).2 = None.
Proof.
  split; [reflexivity |].
  apply (muted_play_schedules_nothing demo_player "a" demo_samples None None
           one_half muted_world).
  reflexivity.
Defined.

(** C6, at an input where it fails. The player is not muted, and
    ["toString"] has no entry in the cache and none among the sound paths
    of the player. [key in this.soundPaths] finds the name on the
    prototype all the same: [playSound] caches an element for it and
    returns an instance, and the call warns of nothing. *)
Example inherited_key_is_played :
  muted demo_world = false
  ∧ audioCache demo_world !! "toString" = None
  ∧ soundPaths demo_player !! "toString" = None
  ∧ (playSound demo_player "toString" None None demo_world).2 = Some 0%nat
  ∧ is_Some (audioCache (playSound demo_player "toString" None None
                           demo_world).1 !! "toString")
  ∧ warnings (drop (length (trace demo_world))
                (trace (playSound demo_player "toString" None None
                          demo_world).1))
    = [].
Proof. repeat split; try reflexivity. by eexists. Qed.

(** C7. [preloadSound] on a key that is not cached constructs one
    element for the path, caches it under the key and issues its
    [load()]; on a cached key it does nothing. So of two calls for one
    key, with any paths, the second changes nothing at all (no element is
    constructed, nothing is loaded, the cache is the same), and the cache
    holds exactly one entry under the key. *)
Theorem preloadSound_idempotent (key path1 path2 : string) (w : world) :
  preloadSound key path2 (preloadSound key path1 w) = preloadSound key path1 w
  ∧ length (entries_for key
              (audioCache (preloadSound key path2 (preloadSound key path1 w))))
    = 1%nat
  ∧ trace (preloadSound key path2 (preloadSound key path1 w))
    = trace (preloadSound key path1 w)
  ∧ trace (preloadSound key path1 w)
    = trace w ++ match audioCache w !! key with
                 | None => [Constructed path1; Loaded path1]
                 | Some _ => []
                 end
  ∧ audioCache (preloadSound key path1 w)
    = match audioCache w !! key with
      | None => <[key := preloaded path1]> (audioCache w)
      | Some _ => audioCache w
      end.
Proof.
  assert (preloadSound key path2 (preloadSound key path1 w)
          = preloadSound key path1 w) as ->
    by apply preloadSound_cached, preloadSound_caches.
  split; [reflexivity |]. split.
  { destruct (preloadSound_caches key path1 w) as [a Ha].
    by rewrite (entries_for_cached key a). }
  split; [reflexivity |].
  unfold preloadSound. destruct (audioCache w !! key); fields.
  - by rewrite app_nil_r.
  - by rewrite <- app_assoc.
Qed.

(** C8. After [setVolume(v)], [getVolume()] returns
    [Math.max(0, Math.min(1, v))], which is the clamp of [v] to [0, 1]:
    0 below 0, 1 above 1, [v] in between (with +0 for -0), and NaN for
    NaN. *)
Theorem setVolume_then_getVolume (v : number) (w : world) :
  getVolume (setVolume v w) = Math_max zero (Math_min one v)
  ∧ same_value_zero (getVolume (setVolume v w)) (clamp v zero one).
Proof. split; [reflexivity | apply clamp_unit_interval]. Qed.

(** C9. With a single sample and [Math.random()] a binary64 value in
    [0, 1), the selection [samples[Math.floor(random * 1)]] is that
    sample, always. And when [playSoundSample] returns an instance, a
    sample was selected and the cursor of the instance is at its [start];
    the call itself has issued no [play()]; the one [play()] is issued
    when the start timer runs, the cursor still there. *)
Theorem cursor_at_sample_start (this : SoundEffectsPlayer) (key : string)
    (samples : list SoundSample) (volume : option number) (random : number)
    (w w' : world) (i : ref) :
  (∀ s : SoundSample, is_random random -> select [s] random = Some s)
  ∧ (playSoundSample this key samples volume random w
     = (w', Returned (Some i)) ->
     ∃ (randomSample : SoundSample) (a a' : HTMLAudioElement),
       select samples random = Some randomSample
       ∧ store w' !! i = Some a
       ∧ currentTime a = start randomSample
       ∧ paused a = true
       ∧ plays (drop (length (trace w)) (trace w')) = []
       ∧ plays (drop (length (trace w'))
                  (trace (fire (length (timers w)) w'))) = [i]
       ∧ store (fire (length (timers w)) w') !! i = Some a'
       ∧ currentTime a' = start randomSample
       ∧ (∀ s, samples = [s] -> is_random random -> randomSample = s)).
Proof.
  split; [intros s Hr; by apply select_singleton |].
  intros Hcall.
  apply playSoundSample_returned in Hcall
    as (audio & randomSample & _ & _ & Hsel & -> & ->).
  destruct (lazy_preload_frame this key w)
    as (_ & Hst & Htm & _ & evs & Htr & _ & Hpl & _).
  destruct (lazy_preload this key w) as [c gv mu st tm tr rj].
  fields. subst st tm tr.
  exists randomSample. rewrite !alter_last.
  erewrite fire_last by reflexivity.
  cbn [handler run_callback].
  assert (∀ s, samples = [s] -> is_random random -> randomSample = s)
    as Hone.
  { intros s -> Hr. rewrite (select_singleton s random Hr) in Hsel.
    congruence. }
  destruct rj; fields; rewrite ?alter_last, !lookup_last;
    do 2 eexists; (split; [exact Hsel |]);
    (split; [reflexivity |]); (split; [reflexivity |]);
    (split; [reflexivity |]);
    (split; [rewrite <- !app_assoc, drop_app_length;
             unfold plays in *; rewrite omap_app, Hpl; reflexivity |]);
    (split; [match goal with
             | |- context [drop (length ?l) _] => generalize l; intros before
             end;
             rewrite <- !app_assoc, drop_app_length; reflexivity |]);
    (split; [reflexivity |]); (split; [reflexivity | exact Hone]).
Qed.

Lemma cursor_at_sample_start_witness :
  is_random one_half
  ∧ select [solo_sample] one_half = Some solo_sample
  ∧ playSoundSample demo_player "a" [solo_sample] None one_half demo_world
    = ((playSoundSample demo_player "a" [solo_sample] None one_half
          demo_world).1, Returned (Some 0%nat))
  ∧ ∃ a : HTMLAudioElement,
      store (playSoundSample demo_player "a" [solo_sample] None one_half
               demo_world).1 !! 0%nat = Some a
      ∧ currentTime a = start solo_sample.
Proof.
  destruct (cursor_at_sample_start demo_player "a" [solo_sample] None
              one_half demo_world
              (playSoundSample demo_player "a" [solo_sample] None one_half
                 demo_world).1 0%nat) as [Hselect Hcursor].
  split; [exact one_half_is_random |].
  split; [exact (Hselect solo_sample one_half_is_random) |].
  split; [reflexivity |].
  destruct (Hcursor eq_refl)
    as (randomSample & a & _ & _ & Ha & Hc & _ & _ & _ & _ & _ & Hone).
  exists a. split; [exact Ha |].
  rewrite Hc. f_equal. exact (Hone solo_sample eq_refl one_half_is_random).
Defined.

(** C10. While muted, [playSound] and [playSoundSample] change neither
    the player nor the world: no lazy load takes place, and the cache has
    the same entry, or none, under every key. *)
Theorem muted_play_changes_nothing (this : SoundEffectsPlayer)
    (key : string) (samples : list SoundSample) (volume : option number)
    (loop : option bool) (random : number) (w : world) :
  muted w = true ->
  run (Invoke (PlaySound key volume loop)) this w = (this, w)
  ∧ run (Invoke (PlaySoundSample key samples volume random)) this w
    = (this, w)
  ∧ (∀ id : string,
       audioCache (playSound this key volume loop w).1 !! id
       = audioCache w !! id
       ∧ audioCache (playSoundSample this key samples volume random w).1
         !! id
         = audioCache w !! id).
Proof.
  intros Hm. cbn [run invoke]. unfold playSound, playSoundSample.
  rewrite Hm. done.
Qed.

Lemma muted_play_changes_nothing_witness :
  muted muted_world = true
  ∧ run (Invoke (PlaySound "a" None None)) demo_player muted_world
    = (demo_player, muted_world).
Proof.
  split; [reflexivity |].
  apply (muted_play_changes_nothing demo_player "a" demo_samples None None
           one_half muted_world).
  reflexivity.
Defined.

(** * Further properties *)

(** ** Stopping, playing and the cache *)

Lemma stopSound_store (r : ref) (w : world) :
  store (stopSound (Some r) w) = alter stopped r (store w).
Proof.
  cbn [stopSound]. fields. unfold stopped.
  apply list_eq. intros j. destruct (decide (r = j)) as [->|Hne].
  - rewrite !list_lookup_alter_eq. by destruct (store w !! j).
  - by rewrite !list_lookup_alter_ne.
Qed.

(** X1. A falsy argument makes [stopSound] do nothing: the world is
    the same. And stopping twice is stopping once: a second [stopSound]
    on the same argument leaves every instance as the first left it, and
    neither call touches timers, cache or policy, schedules anything or
    issues [play()]. *)
Theorem stopSound_idempotent (audio : option ref) (w : world) :
  stopSound None w = w
  ∧ store (stopSound audio (stopSound audio w)) = store (stopSound audio w)
  ∧ timers (stopSound audio (stopSound audio w)) = timers w
  ∧ audioCache (stopSound audio (stopSound audio w)) = audioCache w
  ∧ policy (stopSound audio (stopSound audio w)) = policy w
  ∧ scheduled (drop (length (trace w))
                 (trace (stopSound audio (stopSound audio w)))) = []
  ∧ plays (drop (length (trace w))
             (trace (stopSound audio (stopSound audio w)))) = [].
Proof.
  split; [reflexivity |].
  destruct audio as [r|].
  - rewrite !stopSound_store. split.
    + apply list_eq. intros j. destruct (decide (r = j)) as [->|Hne].
      * rewrite !list_lookup_alter_eq. by destruct (store w !! j).
      * by rewrite !list_lookup_alter_ne.
    + cbn [stopSound]. fields. rewrite <- app_assoc, drop_app_length. done.
  - cbn [stopSound]. rewrite drop_all. done.
Qed.

(** X2. [stopSound] on an allocated instance pauses it and puts its
    cursor at 0, keeping its source, volume and loop flag; every other
    instance, the timers and the cache are as before, and the platform
    sees one [pause()]. *)
Theorem stopSound_local (r j : ref) (a : HTMLAudioElement) (w : world) :
  store w !! r = Some a ->
  j ≠ r ->
  store (stopSound (Some r) w) !! r
  = Some {| src := src a; preload := preload a; volume := volume a;
            loop := loop a; currentTime := zero; paused := true |}
  ∧ store (stopSound (Some r) w) !! j = store w !! j
  ∧ length (store (stopSound (Some r) w)) = length (store w)
  ∧ timers (stopSound (Some r) w) = timers w
  ∧ audioCache (stopSound (Some r) w) = audioCache w
  ∧ trace (stopSound (Some r) w) = trace w ++ [Paused r].
Proof.
  unfold ref in *. intros Ha Hj. rewrite !stopSound_store. split.
  { by rewrite list_lookup_alter_eq, Ha. }
  split.
  { by rewrite list_lookup_alter_ne. }
  split; [apply length_alter |]. done.
Qed.

Lemma stopSound_local_witness :
  store playing_world !! 0%nat
  = Some {| src := "a.mp3"; preload := "auto"; volume := seven_tenths;
            loop := false; currentTime := zero; paused := true |}
  ∧ 1%nat ≠ 0%nat
  ∧ store (stopSound (Some 0%nat) playing_world) !! 1%nat
    = store playing_world !! 1%nat.
Proof.
  split; [reflexivity |]. split; [discriminate |].
  apply (stopSound_local 0%nat 1%nat _ playing_world eq_refl).
  discriminate.
Defined.

Lemma appends_only_refl (w : world) : appends_only w w.
Proof. repeat split; try done. lia. Qed.

Lemma preloadSound_cache (key path : string) (w : world) :
  audioCache (preloadSound key path w)
  = match audioCache w !! key with
    | Some _ => audioCache w
    | None => <[key := preloaded path]> (audioCache w)
    end.
Proof. unfold preloadSound. by destruct (audioCache w !! key). Qed.

Lemma preloadSound_cache_extends (key path : string) (w : world) :
  audioCache w ⊆ audioCache (preloadSound key path w).
Proof.
  rewrite preloadSound_cache.
  destruct (audioCache w !! key) eqn:H; [done | by apply insert_subseteq].
Qed.

Lemma lazy_preload_cache_extends (this : SoundEffectsPlayer) (key : string)
    (w : world) :
  audioCache w ⊆ audioCache (lazy_preload this key w).
Proof.
  unfold lazy_preload.
  destruct (audioCache w !! key); [done |].
  destruct (has_property (soundPaths this) key); [| done].
  apply preloadSound_cache_extends.
Qed.

Lemma lazy_preload_finds (this : SoundEffectsPlayer) (key : string)
    (w : world) :
  has_source this key w = true ->
  is_Some (audioCache (lazy_preload this key w) !! key).
Proof.
  unfold has_source, lazy_preload.
  destruct (audioCache w !! key) as [a|] eqn:Ha.
  - intros _. by rewrite Ha.
  - rewrite bool_decide_eq_false_2 by (by intros [? ?]).
    cbn [orb]. intros Hown. unfold has_property. rewrite Hown. cbn [orb].
    rewrite preloadSound_cache, Ha, lookup_insert_eq. by eexists.
Qed.

Lemma lazy_preload_appends (this : SoundEffectsPlayer) (key : string)
    (w : world) :
  appends_only w (lazy_preload this key w).
Proof.
  destruct (lazy_preload_frame this key w)
    as (Hp & Hst & Htm & Hrj & evs & Htr & _).
  pose proof (lazy_preload_cache_extends this key w) as Hc.
  unfold appends_only. rewrite Hst, Htm, Htr, Hp, Hrj.
  repeat split; try done; try lia. by exists evs.
Qed.

Lemma playSound_found (this : SoundEffectsPlayer) (key : string)
    (volume : option number) (loop : option bool) (audio : HTMLAudioElement)
    (w : world) :
  muted w = false ->
  audioCache (lazy_preload this key w) !! key = Some audio ->
  playSound this key volume loop w
  = (setTimeout (StartSound (length (store w)) key) zero
       (assign (length (store w)) (set_loop (default false loop))
          (assign (length (store w))
             (set_volume (default (globalVolume w) volume))
             (allocate (src audio) (lazy_preload this key w)).1)),
     Some (length (store w))).
Proof.
  intros Hm Ha. unfold playSound. fold (lazy_preload this key w).
  destruct (lazy_preload_frame this key w) as (Hp & Hst & _).
  injection Hp as Hgv _.
  rewrite Hm, Ha. cbn [allocate fst with_store emit globalVolume].
  by rewrite Hst, Hgv.
Qed.

Lemma playSound_cache (this : SoundEffectsPlayer) (key : string)
    (volume : option number) (loop : option bool) (w : world) :
  muted w = false ->
  audioCache (playSound this key volume loop w).1
  = audioCache (lazy_preload this key w).
Proof.
  intros Hm. unfold playSound. fold (lazy_preload this key w). rewrite Hm.
  by destruct (audioCache (lazy_preload this key w) !! key).
Qed.

Lemma playSoundSample_cache (this : SoundEffectsPlayer) (key : string)
    (samples : list SoundSample) (volume : option number) (random : number)
    (w : world) :
  muted w = false ->
  audioCache (playSoundSample this key samples volume random w).1
  = audioCache (lazy_preload this key w).
Proof.
  intros Hm. unfold playSoundSample. fold (lazy_preload this key w).
  fold (select samples random). rewrite Hm.
  destruct (audioCache (lazy_preload this key w) !! key); [| done].
  cbn [allocate]. by destruct (select samples random).
Qed.

(** X3. Not muted, with an element for the key (cached, or configured
    among the sound paths) and a volume that the element accepts,
    [playSound] returns a fresh instance, the next address of the store:
    it has the override as volume or else the global volume, the loop
    flag (false by default), cursor 0, and is not playing yet; the one new
    timer is its start with delay 0; no [play()] is issued and nothing is
    warned during the call. *)
Theorem playSound_creates_instance (this : SoundEffectsPlayer) (key : string)
    (volume : option number) (loop : option bool) (w : world) :
  muted w = false ->
  has_source this key w = true ->
  accepted_volume (default (globalVolume w) volume) ->
  ∃ url : string,
    (playSound this key volume loop w).2 = Some (length (store w))
    ∧ store (playSound this key volume loop w).1
      = store w ++ [ {| src := url; preload := "auto";
                        volume := default (globalVolume w) volume;
                        loop := default false loop;
                        currentTime := zero; paused := true |} ]
    ∧ timers (playSound this key volume loop w).1
      = timers w ++ [start_sound_timer (length (store w)) key]
    ∧ scheduled (drop (length (trace w))
                   (trace (playSound this key volume loop w).1))
      = [start_sound_timer (length (store w)) key]
    ∧ plays (drop (length (trace w))
               (trace (playSound this key volume loop w).1)) = []
    ∧ warnings (drop (length (trace w))
                  (trace (playSound this key volume loop w).1)) = [].
Proof.
  intros Hm Hs _.
  destruct (lazy_preload_finds this key w Hs) as [audio Ha].
  exists (src audio).
  rewrite (playSound_found this key volume loop audio w Hm Ha).
  destruct (lazy_preload_frame this key w)
    as (_ & Hst & Htm & _ & evs & Htr & Hsch & Hpl & Hwa).
  destruct (lazy_preload this key w) as [c gv mu st tm tr rj].
  fields. subst st tm tr. rewrite !alter_last.
  rewrite <- !app_assoc, drop_app_length.
  unfold scheduled, plays, warnings in *.
  rewrite !omap_app, Hsch, Hpl, Hwa. done.
Qed.

Lemma playSound_creates_instance_witness :
  muted demo_world = false
  ∧ has_source demo_player "a" demo_world = true
  ∧ accepted_volume (default (globalVolume demo_world) None)
  ∧ (playSound demo_player "a" None None demo_world).2
    = Some (length (store demo_world)).
Proof.
  split; [reflexivity |]. split; [reflexivity |].
  split; [split; reflexivity |].
  destruct (playSound_creates_instance demo_player "a" None None demo_world
              eq_refl eq_refl (conj eq_refl eq_refl)) as (url & H & _).
  exact H.
Defined.

(** X4. Not muted, key not cached but configured: a play call caches
    a preloaded element for the configured path under the key; and with a
    volume that the element accepts, [playSound] constructs and loads
    that element before it constructs the instance and schedules its
    start. *)
Theorem play_loads_lazily (this : SoundEffectsPlayer) (key path : string)
    (samples : list SoundSample) (volume : option number)
    (loop : option bool) (random : number) (w : world) :
  muted w = false ->
  audioCache w !! key = None ->
  soundPaths this !! key = Some path ->
  accepted_volume (default (globalVolume w) volume) ->
  audioCache (playSound this key volume loop w).1
  = <[key := preloaded path]> (audioCache w)
  ∧ audioCache (playSoundSample this key samples volume random w).1
    = <[key := preloaded path]> (audioCache w)
  ∧ ∃ url : string,
      trace (playSound this key volume loop w).1
      = trace w ++ [Constructed path; Loaded path; Constructed url;
                    Scheduled (start_sound_timer (length (store w)) key)].
Proof.
  intros Hm Hc Hp _.
  assert (lazy_preload this key w = preloadSound key path w) as Hl.
  { unfold lazy_preload, has_property, property_text. rewrite Hc, Hp.
    by rewrite bool_decide_eq_true_2 by (by eexists). }
  rewrite playSound_cache, playSoundSample_cache, Hl, preloadSound_cache, Hc
    by done.
  split; [done |]. split; [done |].
  assert (audioCache (lazy_preload this key w) !! key = Some (preloaded path))
    as Ha by (by rewrite Hl, preloadSound_cache, Hc, lookup_insert_eq).
  exists (src (preloaded path)).
  rewrite (playSound_found this key volume loop _ w Hm Ha), Hl.
  unfold preloadSound. rewrite Hc. fields. by rewrite <- !app_assoc.
Qed.

Lemma play_loads_lazily_witness :
  muted (initial_world false) = false
  ∧ audioCache (initial_world false) !! "a" = None
  ∧ soundPaths demo_player !! "a" = Some "a.mp3"
  ∧ accepted_volume (default (globalVolume (initial_world false)) None)
  ∧ audioCache (playSound demo_player "a" None None (initial_world false)).1
    = <["a" := preloaded "a.mp3"]> (audioCache (initial_world false)).
Proof.
  split; [reflexivity |]. split; [reflexivity |]. split; [reflexivity |].
  split; [split; reflexivity |].
  apply (play_loads_lazily demo_player "a" "a.mp3" demo_samples None None
           one_half (initial_world false) eq_refl eq_refl eq_refl
           (conj eq_refl eq_refl)).
Defined.

(** X6. When the start timer of a full sound runs, [play()] is issued
    once for its instance and no further timer is scheduled (a full
    sound has no deferred stop); the timer is gone. If the platform
    accepts, the instance plays and nothing is reported; if it rejects,
    exactly one error is reported. Volume, loop flag and cursor of the
    instance stay as [playSound] set them. *)
Theorem full_sound_starts_once (this : SoundEffectsPlayer) (key : string)
    (volume : option number) (loop : option bool) (w : world) :
  muted w = false ->
  has_source this key w = true ->
  accepted_volume (default (globalVolume w) volume) ->
  let w' := (playSound this key volume loop w).1 in
  let started := fire (length (timers w)) w' in
  timers started = timers w
  ∧ plays (drop (length (trace w')) (trace started)) = [length (store w)]
  ∧ scheduled (drop (length (trace w')) (trace started)) = []
  ∧ errors (drop (length (trace w')) (trace started))
    = (if rejecting w then [play_error_message key] else [])
  ∧ ∃ (url : string) (waiting : bool),
      store started
      = store w ++ [ {| src := url; preload := "auto";
                        volume := default (globalVolume w) volume;
                        loop := default false loop;
                        currentTime := zero; paused := waiting |} ]
      ∧ (rejecting w = false -> waiting = false).
Proof.
  intros Hm Hs _. cbn zeta.
  destruct (lazy_preload_finds this key w Hs) as [audio Ha].
  rewrite (playSound_found this key volume loop audio w Hm Ha).
  destruct (lazy_preload_frame this key w)
    as (_ & Hst & Htm & Hrj & evs & Htr & _).
  destruct (lazy_preload this key w) as [c gv mu st tm tr rj].
  fields. subst st tm tr rj.
  erewrite fire_last by reflexivity.
  cbn [handler run_callback].
  destruct (rejecting w); fields; rewrite !alter_last;
    (split; [reflexivity |]);
    match goal with
    | |- context [drop (length ?l) _] => generalize l; intros before
    end;
    rewrite <- ?app_assoc, !drop_app_length;
    (split; [done |]); (split; [done |]); (split; [done |]);
    eexists _, _; (split; [reflexivity | done]).
Qed.

Lemma full_sound_starts_once_witness :
  muted demo_world = false
  ∧ has_source demo_player "a" demo_world = true
  ∧ accepted_volume (default (globalVolume demo_world) None)
  ∧ timers (fire (length (timers demo_world))
              (playSound demo_player "a" None None demo_world).1)
    = timers demo_world.
Proof.
  split; [reflexivity |]. split; [reflexivity |].
  split; [split; reflexivity |].
  apply (full_sound_starts_once demo_player "a" None None
           demo_world eq_refl eq_refl (conj eq_refl eq_refl)).
Defined.

(** X7. Muting after a sound was scheduled neither removes its
    instance nor its timer, and the timer still issues [play()] when it
    runs: the mute flag is read by the play functions only. *)
Theorem mute_does_not_cancel (this : SoundEffectsPlayer) (key : string)
    (volume : option number) (loop : option bool) (w : world) :
  muted w = false ->
  has_source this key w = true ->
  accepted_volume (default (globalVolume w) volume) ->
  let w' := setMuted true (playSound this key volume loop w).1 in
  store w' = store (playSound this key volume loop w).1
  ∧ timers w' = timers (playSound this key volume loop w).1
  ∧ timers w' = timers w ++ [start_sound_timer (length (store w)) key]
  ∧ plays (drop (length (trace w'))
             (trace (fire (length (timers w)) w'))) = [length (store w)].
Proof.
  intros Hm Hs _. cbn zeta.
  destruct (lazy_preload_finds this key w Hs) as [audio Ha].
  rewrite (playSound_found this key volume loop audio w Hm Ha).
  destruct (lazy_preload_frame this key w)
    as (_ & Hst & Htm & Hrj & evs & Htr & _).
  destruct (lazy_preload this key w) as [c gv mu st tm tr rj].
  unfold setMuted. fields. subst st tm tr rj.
  split; [reflexivity |]. split; [reflexivity |]. split; [reflexivity |].
  erewrite fire_last by reflexivity.
  cbn [handler run_callback].
  destruct (rejecting w); fields;
    match goal with
    | |- context [drop (length ?l) _] => generalize l; intros before
    end;
    rewrite <- ?app_assoc, !drop_app_length; done.
Qed.

Lemma mute_does_not_cancel_witness :
  muted demo_world = false
  ∧ has_source demo_player "a" demo_world = true
  ∧ accepted_volume (default (globalVolume demo_world) None)
  ∧ store (setMuted true (playSound demo_player "a" None None demo_world).1)
    = store (playSound demo_player "a" None None demo_world).1.
Proof.
  split; [reflexivity |]. split; [reflexivity |].
  split; [split; reflexivity |].
  apply (mute_does_not_cancel demo_player "a" None None
           demo_world eq_refl eq_refl (conj eq_refl eq_refl)).
Defined.

(** X19. Not muted, and with a key that is not cached and that [in]
    does not find among the sound paths (no own entry and no inherited
    name), both play functions return no instance, and all they do is
    warn once, with the not-found message. *)
Theorem unknown_key_warns_once (this : SoundEffectsPlayer) (key : string)
    (samples : list SoundSample) (volume : option number)
    (loop : option bool) (random : number) (w : world) :
  muted w = false ->
  audioCache w !! key = None ->
  has_property (soundPaths this) key = false ->
  playSound this key volume loop w
  = (console_warn (not_found_message key) w, None)
  ∧ playSoundSample this key samples volume random w
    = (console_warn (not_found_message key) w, Returned None)
  ∧ trace (console_warn (not_found_message key) w)
    = trace w ++ [Warned (not_found_message key)]
  ∧ warnings (drop (length (trace w))
                (trace (console_warn (not_found_message key) w)))
    = [not_found_message key].
Proof.
  intros Hm Hc Hp. unfold playSound, playSoundSample.
  rewrite Hm, Hc, Hp, Hc.
  cbn [fst console_warn emit trace]. rewrite drop_app_length. done.
Qed.

Lemma unknown_key_warns_once_witness :
  muted demo_world = false
  ∧ audioCache demo_world !! "x" = None
  ∧ has_property (soundPaths demo_player) "x" = false
  ∧ playSound demo_player "x" None None demo_world
    = (console_warn (not_found_message "x") demo_world, None).
Proof.
  split; [reflexivity |]. split; [reflexivity |]. split; [reflexivity |].
  apply (unknown_key_warns_once demo_player "x" demo_samples None None
           one_half demo_world eq_refl eq_refl eq_refl).
Defined.

Lemma playSound_appends (this : SoundEffectsPlayer) (key : string)
    (volume : option number) (loop : option bool) (w : world) :
  appends_only w (playSound this key volume loop w).1.
Proof.
  destruct (muted w) eqn:Hm.
  { unfold playSound. rewrite Hm. apply appends_only_refl. }
  pose proof (lazy_preload_appends this key w)
    as (Hst & Hlen & Htm & Htr & Hc & Hp & Hrj).
  destruct (audioCache (lazy_preload this key w) !! key) as [audio|] eqn:Ha.
  - rewrite (playSound_found this key volume loop audio w Hm Ha).
    destruct (lazy_preload_frame this key w) as (_ & Hs & _).
    destruct (lazy_preload this key w) as [c gv mu st tm tr rj].
    unfold appends_only. fields. subst st. rewrite !alter_last.
    repeat split; try done.
    + by apply prefix_app_r.
    + rewrite length_app. cbn. lia.
    + by apply prefix_app_r.
    + by do 2 apply prefix_app_r.
  - unfold playSound. fold (lazy_preload this key w). rewrite Hm, Ha.
    unfold appends_only. fields. repeat split; try done.
    by apply prefix_app_r.
Qed.

Lemma playSoundSample_appends (this : SoundEffectsPlayer) (key : string)
    (samples : list SoundSample) (volume : option number) (random : number)
    (w : world) :
  appends_only w (playSoundSample this key samples volume random w).1.
Proof.
  unfold playSoundSample. fold (lazy_preload this key w).
  fold (select samples random).
  destruct (muted w) eqn:Hm; [apply appends_only_refl |].
  pose proof (lazy_preload_appends this key w)
    as (Hst & Hlen & Htm & Htr & Hc & Hp & Hrj).
  destruct (lazy_preload_frame this key w) as (_ & Hs & _).
  destruct (audioCache (lazy_preload this key w) !! key) as [audio|] eqn:Ha.
  - cbn [allocate]. destruct (select samples random) as [randomSample|];
      destruct (lazy_preload this key w) as [c gv mu st tm tr rj];
      unfold appends_only; fields; subst st; rewrite !alter_last;
      repeat split; try done;
      try (by apply prefix_app_r); try (by do 2 apply prefix_app_r);
      rewrite length_app; cbn; lia.
  - unfold appends_only. fields. repeat split; try done.
    by apply prefix_app_r.
Qed.

Lemma playRegisteredSample_appends (this : SoundEffectsPlayer)
    (key : string) (volume : option number) (random : number) (w : world) :
  appends_only w (playRegisteredSample this key volume random w).1.
Proof.
  unfold playRegisteredSample.
  destruct (registered this key);
    [apply playSoundSample_appends |].
  unfold appends_only. fields. repeat split; try done; try lia.
  by apply prefix_app_r.
Qed.

(** X5. The three play functions never touch what exists: instances,
    pending timers and trace are only extended, by at most one instance,
    cache entries stay, and the policy is unchanged, whatever the
    arguments and whether or not the call throws. *)
Theorem play_appends_only (this : SoundEffectsPlayer) (key : string)
    (samples : list SoundSample) (volume : option number)
    (loop : option bool) (random : number) (w : world) :
  appends_only w (playSound this key volume loop w).1
  ∧ appends_only w (playSoundSample this key samples volume random w).1
  ∧ appends_only w (playRegisteredSample this key volume random w).1.
Proof.
  split; [apply playSound_appends |].
  split; [apply playSoundSample_appends |].
  apply playRegisteredSample_appends.
Qed.

Lemma preloadAllSounds_frame (this : SoundEffectsPlayer) (w : world) :
  store (preloadAllSounds this w) = store w
  ∧ timers (preloadAllSounds this w) = timers w
  ∧ audioCache w ⊆ audioCache (preloadAllSounds this w).
Proof.
  unfold preloadAllSounds.
  generalize (map_to_list (soundPaths this)) as entries. intros entries.
  revert w. induction entries as [|entry entries IH]; intros w; [done |].
  cbn [foldl]. destruct (IH (preloadSound entry.1 entry.2 w)) as (-> & -> & Hc).
  destruct (preloadSound_frame entry.1 entry.2 w) as (_ & -> & -> & _).
  split; [done |]. split; [done |].
  etrans; [apply preloadSound_cache_extends | exact Hc].
Qed.

Lemma run_callback_frame (cb : callback) (w : world) :
  audioCache (run_callback cb w) = audioCache w
  ∧ length (store (run_callback cb w)) = length (store w)
  ∧ ∀ t, t ∈ timers (run_callback cb w) ->
         t ∈ timers w ∨ instance_of (handler t) = instance_of cb.
Proof.
  destruct w as [c gv mu st tm tr rj].
  destruct cb as [i key|i key smp|i], rj; cbn [run_callback stopSound];
    fields; rewrite ?length_alter;
    (split; [reflexivity |]); (split; [reflexivity |]); intros t Ht;
    try (by left);
    apply elem_of_app in Ht as [Ht|Ht%list_elem_of_singleton];
    [by left | subst t; by right | by left | subst t; by right].
Qed.

Lemma run_extends (s : step) (this : SoundEffectsPlayer) (w : world) :
  audioCache w ⊆ audioCache (run s this w).2
  ∧ (length (store w) <= length (store (run s this w).2))%nat.
Proof.
  destruct s as [m|paths v|n]; cbn [run].
  - destruct m as [key samples|key path| |key vol lp|key samples vol random
                  |key vol random|audio|vol| |b|];
      cbn [invoke snd]; try done.
    + split; [apply preloadSound_cache_extends |].
      by destruct (preloadSound_frame key path w) as (_ & -> & _).
    + destruct (preloadAllSounds_frame this w) as (-> & _ & Hc). done.
    + destruct (playSound_appends this key vol lp w)
        as (Hst%prefix_length & _ & _ & _ & Hc & _). done.
    + destruct (playSoundSample_appends this key samples vol random w)
        as (Hst%prefix_length & _ & _ & _ & Hc & _). done.
    + destruct (playRegisteredSample_appends this key vol random w)
        as (Hst%prefix_length & _ & _ & _ & Hc & _). done.
    + destruct audio as [r|]; [| done]. split; [done |].
      rewrite stopSound_store, length_alter. done.
  - done.
  - unfold fire. cbn [snd]. destruct (timers w !! n) as [t|]; [| done].
    destruct (run_callback_frame (handler t)
                (with_timers (delete n (timers w)) w)) as (-> & -> & _).
    done.
Qed.

(** X8. No step removes or replaces a cache entry: an element cached
    under a key is still the one cached under it after any method call,
    construction or timer callback. *)
Theorem cache_only_grows (s : step) (this : SoundEffectsPlayer) (w : world)
    (key : string) (a : HTMLAudioElement) :
  audioCache w !! key = Some a ->
  audioCache (run s this w).2 !! key = Some a.
Proof.
  intros Ha. destruct (run_extends s this w) as [Hc _].
  by eapply lookup_weaken.
Qed.

Lemma cache_only_grows_witness :
  audioCache demo_world !! "a" = Some (preloaded "a.mp3")
  ∧ audioCache
      (run (Invoke (PreloadSound "a" "other.mp3")) demo_player demo_world).2
      !! "a"
    = Some (preloaded "a.mp3").
Proof.
  split; [reflexivity |].
  apply (cache_only_grows (Invoke (PreloadSound "a" "other.mp3"))
           demo_player demo_world "a" (preloaded "a.mp3") eq_refl).
Defined.

Lemma playSound_new_timers (this : SoundEffectsPlayer) (key : string)
    (volume : option number) (loop : option bool) (w : world) :
  ∀ t, t ∈ timers (playSound this key volume loop w).1 ->
       t ∈ timers w
       ∨ (instance_of (handler t)
          < length (store (playSound this key volume loop w).1))%nat.
Proof.
  destruct (muted w) eqn:Hm.
  { unfold playSound. rewrite Hm. by left. }
  destruct (lazy_preload_frame this key w) as (_ & Hs & Ht & _).
  destruct (audioCache (lazy_preload this key w) !! key) as [audio|] eqn:Ha.
  - rewrite (playSound_found this key volume loop audio w Hm Ha).
    destruct (lazy_preload this key w) as [c gv mu st tm tr rj].
    fields. subst st tm. rewrite !alter_last.
    intros t [Hold|Hnew%list_elem_of_singleton]%elem_of_app; [by left |].
    subst t. right. rewrite length_app. cbn. lia.
  - unfold playSound. fold (lazy_preload this key w). rewrite Hm, Ha.
    fields. rewrite Ht. by left.
Qed.

Lemma playSoundSample_new_timers (this : SoundEffectsPlayer) (key : string)
    (samples : list SoundSample) (volume : option number) (random : number)
    (w : world) :
  ∀ t, t ∈ timers (playSoundSample this key samples volume random w).1 ->
       t ∈ timers w
       ∨ (instance_of (handler t)
          < length (store (playSoundSample this key samples volume random
                             w).1))%nat.
Proof.
  unfold playSoundSample. fold (lazy_preload this key w).
  fold (select samples random).
  destruct (muted w) eqn:Hm; [by left |].
  destruct (lazy_preload_frame this key w) as (_ & Hs & Ht & _).
  destruct (audioCache (lazy_preload this key w) !! key) as [audio|] eqn:Ha.
  - cbn [allocate]. destruct (select samples random) as [randomSample|];
      destruct (lazy_preload this key w) as [c gv mu st tm tr rj];
      fields; subst st tm; rewrite !alter_last; [| by left].
    intros t [Hold|Hnew%list_elem_of_singleton]%elem_of_app; [by left |].
    subst t. right. rewrite length_app. cbn. lia.
  - fields. rewrite Ht. by left.
Qed.

(** X9. If every pending timer refers to an allocated instance, the
    same holds after any step, and the store never shrinks: a callback
    always finds its instance. *)
Theorem timers_stay_valid (s : step) (this : SoundEffectsPlayer) (w : world) :
  timers_valid w ->
  timers_valid (run s this w).2
  ∧ (length (store w) <= length (store (run s this w).2))%nat.
Proof.
  intros Hv. split; [| apply run_extends].
  assert (∀ w' : world,
            (length (store w) <= length (store w'))%nat ->
            (∀ t, t ∈ timers w' ->
                  t ∈ timers w
                  ∨ (instance_of (handler t) < length (store w'))%nat) ->
            timers_valid w') as Hkeep.
  { intros w' Hlen Hin t Ht. destruct (Hin t Ht) as [Hold|Hnew]; [| done].
    specialize (Hv t Hold). lia. }
  destruct (run_extends s this w) as [_ Hlen].
  apply Hkeep; [exact Hlen |]. clear Hkeep Hlen.
  destruct s as [m|paths v|n]; cbn [run].
  - destruct m as [key samples|key path| |key vol lp|key samples vol random
                  |key vol random|audio|vol| |b|];
      cbn [invoke snd]; try (intros t Ht; by left).
    + destruct (preloadSound_frame key path w) as (_ & _ & -> & _). by left.
    + destruct (preloadAllSounds_frame this w) as (_ & -> & _). by left.
    + apply playSound_new_timers.
    + apply playSoundSample_new_timers.
    + unfold playRegisteredSample.
      destruct (registered this key);
        [apply playSoundSample_new_timers | by left].
    + destruct audio; by left.
  - by left.
  - unfold fire. cbn [snd]. intros t Ht.
    destruct (timers w !! n) as [t0|] eqn:Hn; [| by left].
    destruct (run_callback_frame (handler t0)
                (with_timers (delete n (timers w)) w)) as (_ & Hl & Hin).
    destruct (Hin t Ht) as [Hold|Heq].
    + left. by apply list_elem_of_delete_inv in Hold.
    + right. rewrite Heq, Hl. apply Hv. by eapply list_elem_of_lookup_2.
Qed.

Lemma playing_world_valid : timers_valid playing_world.
Proof.
  intros t Ht. change (timers playing_world)
    with [start_sound_timer 0%nat "a"] in Ht.
  apply list_elem_of_singleton in Ht. subst t. change (0 < 1)%nat. lia.
Defined.

Lemma timers_stay_valid_witness :
  timers_valid playing_world
  ∧ timers_valid (run (Fire 0%nat) demo_player playing_world).2.
Proof.
  split; [exact playing_world_valid |].
  apply (timers_stay_valid (Fire 0%nat) demo_player playing_world
           playing_world_valid).
Defined.

Lemma preload_entries_cache (entries : list (string * string)) (w : world)
    (key : string) :
  audioCache (foldl (λ w entry, preloadSound entry.1 entry.2 w) w entries)
    !! key
  = match audioCache w !! key with
    | Some a => Some a
    | None =>
        preloaded <$> (list_to_map entries : gmap string string) !! key
    end.
Proof.
  revert w. induction entries as [|[k p] entries IH]; intros w.
  - cbn. by destruct (audioCache w !! key).
  - cbn [foldl fst snd list_to_map foldr uncurry]. rewrite IH.
    rewrite preloadSound_cache.
    destruct (decide (k = key)) as [->|Hne].
    + rewrite lookup_insert_eq.
      destruct (audioCache w !! key) as [a|] eqn:Ha.
      * by rewrite Ha.
      * by rewrite lookup_insert_eq.
    + rewrite (lookup_insert_ne _ k key) by done.
      destruct (audioCache w !! k); [done |].
      by rewrite lookup_insert_ne.
Qed.

(** X10. After [preloadAllSounds], a key that was cached has the
    element it had, a key that was not has a preloaded element for its
    configured path, and a key neither cached nor configured is still
    absent. *)
Theorem preloadAllSounds_cache (this : SoundEffectsPlayer) (w : world)
    (key : string) :
  audioCache (preloadAllSounds this w) !! key
  = match audioCache w !! key with
    | Some a => Some a
    | None => preloaded <$> soundPaths this !! key
    end.
Proof.
  unfold preloadAllSounds.
  by rewrite preload_entries_cache, list_to_map_to_list.
Qed.

Lemma preload_entries_cached (entries : list (string * string)) (w : world) :
  (∀ entry, entry ∈ entries -> is_Some (audioCache w !! entry.1)) ->
  foldl (λ w entry, preloadSound entry.1 entry.2 w) w entries = w.
Proof.
  induction entries as [|entry entries IH]; intros H; [done |].
  cbn [foldl]. rewrite preloadSound_cached by (apply H; left).
  apply IH. intros e He. apply H. by right.
Qed.

(** X11. [preloadAllSounds] twice is [preloadAllSounds] once: the
    second call constructs and loads nothing. *)
Theorem preloadAllSounds_idempotent (this : SoundEffectsPlayer) (w : world) :
  preloadAllSounds this (preloadAllSounds this w) = preloadAllSounds this w.
Proof.
  unfold preloadAllSounds at 1. apply preload_entries_cached.
  intros [k p] Hin%elem_of_map_to_list. cbn [fst].
  unfold preloadAllSounds.
  rewrite preload_entries_cache, list_to_map_to_list, Hin.
  by destruct (audioCache w !! k).
Qed.

Lemma playSoundSample_paths (this1 this2 : SoundEffectsPlayer) (key : string)
    (samples : list SoundSample) (volume : option number) (random : number)
    (w : world) :
  soundPaths this1 = soundPaths this2 ->
  playSoundSample this1 key samples volume random w
  = playSoundSample this2 key samples volume random w.
Proof. intros H. unfold playSoundSample. by rewrite H. Qed.

Lemma clamp_idempotent (v : number) :
  Math_max zero (Math_min one (Math_max zero (Math_min one v)))
  = Math_max zero (Math_min one v).
Proof.
  destruct v as [s|s| |s m e].
  - by destruct s.
  - by destruct s.
  - done.
  - destruct s; [done |].
    set (v := S754_finite false m e).
    assert (Math_max zero v = v) as Hv by reflexivity.
    assert (Math_min one v = if ltb v one then v else one) as Hm
      by reflexivity.
    rewrite Hm. destruct (ltb v one) eqn:Hlt; [| reflexivity].
    by rewrite Hv, Hm, ?Hlt, Hv.
Qed.

(** X13. Setting the volume to what [getVolume] returns changes
    nothing: the clamp is idempotent on every number, NaN, infinities
    and both zeros included. *)
Theorem setVolume_idempotent (v : number) (w : world) :
  setVolume (getVolume (setVolume v w)) (setVolume v w) = setVolume v w.
Proof.
  unfold setVolume, getVolume. cbn [with_globalVolume globalVolume].
  by rewrite clamp_idempotent.
Qed.

(** X12. For a key other than ["__proto__"], [playRegisteredSample]
    after [registerSamples] is [playSoundSample] with the registered
    samples; a later registration under the same key replaces the
    earlier one; and the registration leaves every other key as it was,
    an inherited name included. *)
Theorem registered_samples_are_played (this : SoundEffectsPlayer)
    (key other : string) (samples earlier : list SoundSample)
    (volume : option number) (random : number) (w : world) :
  key ≠ "__proto__" ->
  other ≠ key ->
  playRegisteredSample (registerSamples this key samples) key volume random w
  = playSoundSample this key samples volume random w
  ∧ playRegisteredSample
      (registerSamples (registerSamples this key earlier) key samples)
      key volume random w
    = playSoundSample this key samples volume random w
  ∧ playRegisteredSample (registerSamples this key samples) other volume
      random w
    = playRegisteredSample this other volume random w.
Proof.
  intros Hkey Hne.
  unfold playRegisteredSample, registered, inherited_collection,
    registerSamples.
  rewrite !bool_decide_eq_false_2 by done.
  cbn [sampleCollections collectionsPrototype].
  rewrite !lookup_insert_eq. split; [by apply playSoundSample_paths |].
  split; [by apply playSoundSample_paths |].
  rewrite lookup_insert_ne by done.
  destruct (sampleCollections this !! other);
    [by apply playSoundSample_paths |].
  destruct (collectionsPrototype this) as [prototype|].
  - destruct (bool_decide (other = "__proto__"));
      [by apply playSoundSample_paths |].
    destruct (is_index other prototype
              || bool_decide (other ∈ Array_prototype)
              || bool_decide (other ∈ Object_prototype));
      [by apply playSoundSample_paths | done].
  - destruct (bool_decide (other ∈ Object_prototype));
      [by apply playSoundSample_paths | done].
Qed.

Lemma registered_samples_are_played_witness :
  "a" ≠ "__proto__"
  ∧ "b" ≠ "a"
  ∧ playRegisteredSample (registerSamples demo_player "a" demo_samples) "a"
      None one_half demo_world
    = playSoundSample demo_player "a" demo_samples None one_half demo_world.
Proof.
  split; [discriminate |]. split; [discriminate |].
  apply (registered_samples_are_played demo_player "a" "b" demo_samples []
           None one_half demo_world);
    discriminate.
Defined.

(** X14. [setVolume] leaves the instances that exist as they are.
    Unless its argument is NaN, what it stores is a volume that an
    element accepts, and the next instance played without an override
    gets that clamped value; one played with an override that the
    element accepts gets the override. *)
Theorem setVolume_reaches_new_instances (this : SoundEffectsPlayer)
    (key : string) (loop : option bool) (v override : number)
    (w : world) :
  muted w = false ->
  has_source this key w = true ->
  is_nan v = false ->
  accepted_volume override ->
  store (setVolume v w) = store w
  ∧ accepted_volume (globalVolume (setVolume v w))
  ∧ ∃ url : string,
      store (playSound this key None loop (setVolume v w)).1
      = store w ++ [ {| src := url; preload := "auto";
                        volume := Math_max zero (Math_min one v);
                        loop := default false loop;
                        currentTime := zero; paused := true |} ]
      ∧ store (playSound this key (Some override) loop (setVolume v w)).1
        = store w ++ [ {| src := url; preload := "auto";
                          volume := override;
                          loop := default false loop;
                          currentTime := zero; paused := true |} ].
Proof.
  intros Hm Hs Hn _. split; [reflexivity |].
  split; [by apply clamp_within |].
  assert (muted (setVolume v w) = false) as Hm' by exact Hm.
  assert (has_source this key (setVolume v w) = true) as Hs' by exact Hs.
  destruct (lazy_preload_finds this key _ Hs') as [audio Ha].
  exists (src audio).
  rewrite !(playSound_found this key _ loop audio _ Hm' Ha).
  destruct (lazy_preload_frame this key (setVolume v w))
    as (_ & Hst & _).
  destruct (lazy_preload this key (setVolume v w))
    as [c gv mu st tm tr rj].
  unfold setVolume in *. fields. subst st. rewrite !alter_last. done.
Qed.

Lemma setVolume_reaches_new_instances_witness :
  muted demo_world = false
  ∧ has_source demo_player "a" demo_world = true
  ∧ is_nan five = false
  ∧ accepted_volume one_half
  ∧ store (setVolume five demo_world) = store demo_world
  ∧ accepted_volume (globalVolume (setVolume five demo_world)).
Proof.
  split; [reflexivity |]. split; [reflexivity |]. split; [reflexivity |].
  split; [split; reflexivity |].
  destruct (setVolume_reaches_new_instances demo_player "a" None five
              one_half demo_world eq_refl eq_refl eq_refl
              (conj eq_refl eq_refl)) as (Hstore & Hvolume & _).
  split; [exact Hstore | exact Hvolume].
Defined.

(** X18. The cache is shared by all players: once one player has
    preloaded its sounds, any other player, whatever its own
    configuration, plays a key of the first from the cached element,
    without constructing or loading it again; all it calls on the
    platform is the construction of the instance and [setTimeout]. The
    volume is one that the element accepts. *)
Theorem cache_is_shared (this other : SoundEffectsPlayer) (key path : string)
    (volume : option number) (loop : option bool) (w : world) :
  muted w = false ->
  audioCache w !! key = None ->
  soundPaths this !! key = Some path ->
  accepted_volume (default (globalVolume w) volume) ->
  (playSound other key volume loop (preloadAllSounds this w)).2
  = Some (length (store w))
  ∧ audioCache (playSound other key volume loop (preloadAllSounds this w)).1
    = audioCache (preloadAllSounds this w)
  ∧ audioCache (preloadAllSounds this w) !! key = Some (preloaded path)
  ∧ ∃ url : string,
      store (playSound other key volume loop (preloadAllSounds this w)).1
      = store w ++ [ {| src := url; preload := "auto";
                        volume := default (globalVolume w) volume;
                        loop := default false loop;
                        currentTime := zero; paused := true |} ]
      ∧ trace (playSound other key volume loop (preloadAllSounds this w)).1
        = trace (preloadAllSounds this w)
            ++ [Constructed url;
                Scheduled (start_sound_timer (length (store w)) key)].
Proof.
  intros Hm Hc Hp _.
  destruct (preloadAllSounds_frame this w) as (Hst & _ & _).
  pose proof (preloadAllSounds_policy this w) as Hpol.
  injection Hpol as Hgv Hmu.
  assert (audioCache (preloadAllSounds this w) !! key
          = Some (preloaded path)) as Hcached.
  { unfold preloadAllSounds.
    by rewrite preload_entries_cache, list_to_map_to_list, Hc, Hp. }
  set (w1 := preloadAllSounds this w) in *.
  assert (lazy_preload other key w1 = w1) as Hlazy
    by (unfold lazy_preload; by rewrite Hcached).
  assert (muted w1 = false) as Hm1 by congruence.
  assert (audioCache (lazy_preload other key w1) !! key
          = Some (preloaded path)) as Ha by (by rewrite Hlazy).
  rewrite (playSound_found other key volume loop _ w1 Hm1 Ha), Hlazy.
  rewrite Hst, Hgv. clearbody w1. destruct w1 as [c gv mu st tm tr rj].
  fields. subst st. rewrite !alter_last.
  split; [done |]. split; [done |]. split; [done |].
  eexists. split; [reflexivity |]. by rewrite <- app_assoc.
Qed.

Lemma cache_is_shared_witness :
  muted (initial_world false) = false
  ∧ audioCache (initial_world false) !! "a" = None
  ∧ soundPaths demo_player !! "a" = Some "a.mp3"
  ∧ accepted_volume (default (globalVolume (initial_world false)) None)
  ∧ (playSound {| soundPaths := ∅; sampleCollections := ∅;
                  collectionsPrototype := None |} "a" None None
       (preloadAllSounds demo_player (initial_world false))).2
    = Some 0%nat.
Proof.
  split; [reflexivity |]. split; [reflexivity |]. split; [reflexivity |].
  split; [split; reflexivity |].
  apply (cache_is_shared demo_player
           {| soundPaths := ∅; sampleCollections := ∅;
              collectionsPrototype := None |} "a" "a.mp3"
           None None (initial_world false) eq_refl eq_refl eq_refl
           (conj eq_refl eq_refl)).
Defined.

(** ** Rounding and the selection of a sample *)

Lemma shr_1_halves (rec : shr_record) :
  0 <= shr_m rec ->
  shr_m (shr_1 rec) = shr_m rec / 2
  ∧ (shr_r (shr_1 rec) = true -> shr_m rec mod 2 = 1).
Proof.
  destruct rec as [m r s]. cbn [shr_m]. intros Hm.
  destruct m as [|[p|p|]|p]; cbn [shr_1 shr_m shr_r].
  - split; [reflexivity | discriminate].
  - pose proof (Pos2Z.inj_xI p).
    split; [| intros _]; Z.to_euclidean_division_equations; lia.
  - pose proof (Pos2Z.inj_xO p).
    split; [Z.to_euclidean_division_equations; lia | discriminate].
  - split; [reflexivity | reflexivity].
  - exfalso. by apply Hm.
Qed.

Lemma shr_1_shifted (M j : Z) (rec : shr_record) :
  0 <= M -> 0 <= j -> shifted M j rec -> shifted M (j + 1) (shr_1 rec).
Proof.
  intros HM Hj [Hm Hr].
  assert (0 < 2 ^ j) as Hpos by (apply Z.pow_pos_nonneg; lia).
  assert (0 <= shr_m rec) as Hnn by (rewrite Hm; apply Z.div_pos; lia).
  destruct (shr_1_halves rec Hnn) as [Hm' Hr'].
  unfold shifted. rewrite Z.pow_add_r, Z.pow_1_r by lia.
  split.
  - rewrite Hm', Hm, Z.div_div by lia. reflexivity.
  - intros Ht. specialize (Hr' Ht). rewrite Hm in Hr'.
    rewrite Z.rem_mul_r by lia. rewrite Hr'.
    pose proof (Z.mod_pos_bound M (2 ^ j) Hpos). lia.
Qed.

Lemma iter_shr_shifted (M : Z) (p : positive) :
  0 <= M ->
  ∀ (j : Z) (rec : shr_record),
    0 <= j -> shifted M j rec -> shifted M (j + Zpos p) (SpecFloat.iter_pos shr_1 p rec).
Proof.
  intros HM. induction p as [p IH|p IH|]; intros j rec Hj Hs;
    cbn [SpecFloat.iter_pos].
  - replace (j + Zpos p~1) with (j + 1 + Zpos p + Zpos p) by lia.
    apply IH; [lia |]. apply IH; [lia |]. by apply shr_1_shifted.
  - replace (j + Zpos p~0) with (j + Zpos p + Zpos p) by lia.
    apply IH; [lia |]. by apply IH.
  - by apply shr_1_shifted.
Qed.

(** What [shr_fexp] does to an exact non-negative mantissa. *)
Lemma shr_fexp_shifted (m e : Z) :
  0 <= m ->
  ∃ (rec : shr_record) (e' : Z),
    shr_fexp prec emax m e loc_Exact = (rec, e')
    ∧ e <= e' ∧ -1074 <= e'
    ∧ shifted m (e' - e) rec
    ∧ (e' = e ∧ shr_r rec = false
       ∨ e < e' ∧ e' = Z.max (Zdigits2 m + e - 53) (-1074)).
Proof.
  intros Hm. unfold shr_fexp, shr, fexp, SpecFloat.emin, prec, emax.
  cbn [shr_record_of_loc].
  change (3 - 1024 - 53) with (-1074).
  set (k := Z.max (Zdigits2 m + e - 53) (-1074) - e).
  assert (shifted m 0 {| shr_m := m; shr_r := false; shr_s := false |})
    as H0.
  { split; cbn [shr_m shr_r]; [| discriminate].
    by rewrite Z.pow_0_r, Z.div_1_r. }
  destruct k as [|p|p] eqn:Hk.
  - do 2 eexists. split; [reflexivity |]. rewrite Z.sub_diag.
    split; [lia |]. split; [lia |]. split; [exact H0 |]. by left.
  - do 2 eexists. split; [reflexivity |].
    replace (e + Zpos p - e) with (0 + Zpos p) by lia.
    split; [lia |]. split; [lia |].
    split; [by apply iter_shr_shifted |]. right. lia.
  - do 2 eexists. split; [reflexivity |]. rewrite Z.sub_diag.
    split; [lia |]. split; [lia |]. split; [exact H0 |]. by left.
Qed.

Lemma round_nearest_even_bound (rec : shr_record) :
  round_nearest_even (shr_m rec) (loc_of_shr_record rec) = shr_m rec
  ∨ (round_nearest_even (shr_m rec) (loc_of_shr_record rec) = shr_m rec + 1
     ∧ shr_r rec = true).
Proof.
  destruct rec as [m [] []]; cbn; try destruct (Z.even m); auto.
Qed.

Lemma digits2_pos_lower (m : positive) :
  2 ^ (Zpos (digits2_pos m) - 1) <= Zpos m.
Proof.
  induction m as [m IH|m IH|]; cbn [digits2_pos]; [| | done];
    rewrite Pos2Z.inj_succ;
    replace (Z.succ (Zpos (digits2_pos m)) - 1)
      with (Z.succ (Zpos (digits2_pos m) - 1)) by lia;
    rewrite Z.pow_succ_r by lia; lia.
Qed.

Section Scaled.
Variable K : Z.
Hypothesis HK : 1074 <= K.

(** A positive product that stays below [n * (1 - 2^-53)] rounds to a
    value below [n]; values are compared after scaling by [2 ^ K]. *)
Lemma round_below (M : positive) (E n : Z) :
  - K <= E -> 0 < n -> n < 2 ^ 53 ->
  Zpos M * 2 ^ (E + K) * 2 ^ 53 <= n * (2 ^ 53 - 1) * 2 ^ K ->
  match binary_round_aux prec emax false (Zpos M) E loc_Exact with
  | S754_zero _ => True
  | S754_finite false mf ef =>
      - K <= ef ∧ Zpos mf * 2 ^ (ef + K) < n * 2 ^ K
  | _ => False
  end.
Proof.
  intros HE Hn0 Hn HM.
  unfold binary_round_aux.
  destruct (shr_fexp_shifted (Zpos M) E)
    as (rec1 & e1 & -> & Hle1 & Hmin1 & [Hm1 Hr1] & Hcase1); [lia |].
  set (m2 := round_nearest_even (shr_m rec1) (loc_of_shr_record rec1)).
  assert (0 < 2 ^ (e1 - E)) as HQ by (apply Z.pow_pos_nonneg; lia).
  assert (0 <= shr_m rec1) as Hm1nn by (rewrite Hm1; apply Z.div_pos; lia).
  assert (0 <= m2) as Hm2nn.
  { destruct (round_nearest_even_bound rec1) as [H|[H _]];
      fold m2 in H; lia. }
  destruct (shr_fexp_shifted m2 e1 Hm2nn)
    as (rec2 & e2 & -> & Hle2 & _ & [Hm3 _] & _).
  assert (0 < 2 ^ (e2 - e1)) as HQ2 by (apply Z.pow_pos_nonneg; lia).
  assert (0 < 2 ^ (E + K)) as HP by (apply Z.pow_pos_nonneg; lia).
  assert (0 < 2 ^ K) as HPK by (apply Z.pow_pos_nonneg; lia).
  assert (0 < 2 ^ (e1 + K)) as HY by (apply Z.pow_pos_nonneg; lia).
  change (2 ^ 53) with 9007199254740992 in *.
  (* the rounded mantissa at exponent [e1] is below [n] *)
  assert (m2 * 2 ^ (e1 + K) < n * 2 ^ K) as Hm2.
  { destruct Hcase1 as [[-> Hr0]|[Hlt He1]].
    - assert (m2 = Zpos M) as ->.
      { destruct (round_nearest_even_bound rec1) as [H|[_ H]];
          [| congruence].
        fold m2 in H. rewrite H, Hm1, Z.sub_diag, Z.pow_0_r, Z.div_1_r.
        reflexivity. }
      lia.
    - assert (2 ^ (e1 - E) * 2 ^ (E + K) = 2 ^ (e1 + K)) as HQP.
      { rewrite <- Z.pow_add_r by lia. f_equal. lia. }
      assert (2 * m2 * 2 ^ (e1 - E) <= 2 * Zpos M + 2 ^ (e1 - E)) as HA.
      { pose proof (Z.div_mod (Zpos M) (2 ^ (e1 - E))) as Hdm.
        pose proof (Z.mod_pos_bound (Zpos M) (2 ^ (e1 - E)) HQ) as Hmb.
        rewrite <- Hm1 in Hdm.
        destruct (round_nearest_even_bound rec1) as [H|[H Hr]];
          fold m2 in H; rewrite H.
        + nia.
        + specialize (Hr1 Hr). nia. }
      assert (2 * (m2 * 2 ^ (e1 + K))
              <= 2 * (Zpos M * 2 ^ (E + K)) + 2 ^ (e1 + K)) as HB.
      { rewrite <- HQP.
        apply (Z.mul_le_mono_nonneg_r _ _ (2 ^ (E + K))) in HA; [| lia].
        lia. }
      assert (2 ^ (e1 + K) * 4503599627370496 < n * 2 ^ K) as HC.
      { change 4503599627370496 with (2 ^ 52).
        rewrite <- Z.pow_add_r by lia.
        destruct (Z.max_spec (Zdigits2 (Zpos M) + E - 53) (-1074))
          as [[_ Hmax]|[_ Hmax]]; rewrite Hmax in He1; subst e1.
        - apply Z.lt_le_trans with (2 ^ K); [| nia].
          apply Z.pow_lt_mono_r; lia.
        - cbn [Zdigits2].
          replace (Zpos (digits2_pos M) + E - 53 + K + 52)
            with ((Zpos (digits2_pos M) - 1) + (E + K)) by lia.
          pose proof (digits2_pos_lower M) as Hd.
          pose proof (Pos2Z.is_pos (digits2_pos M)).
          rewrite Z.pow_add_r by lia.
          apply Z.le_lt_trans with (Zpos M * 2 ^ (E + K)); [nia | lia]. }
      lia. }
  assert (shr_m rec2 * 2 ^ (e2 + K) <= m2 * 2 ^ (e1 + K)) as Hm3le.
  { replace (e2 + K) with ((e2 - e1) + (e1 + K)) by lia.
    rewrite Z.pow_add_r by lia.
    pose proof (Z.mul_div_le m2 (2 ^ (e2 - e1)) HQ2) as Hd.
    rewrite <- Hm3 in Hd. nia. }
  assert (0 <= shr_m rec2) as Hm3nn by (rewrite Hm3; apply Z.div_pos; lia).
  destruct (shr_m rec2) as [|mf|mf] eqn:Hmf; [done | | lia].
  assert (e2 < 53) as He2.
  { assert (2 ^ (e2 + K) < 2 ^ (53 + K)) as Hpow.
    { rewrite (Z.pow_add_r 2 53 K) by lia.
      change (2 ^ 53) with 9007199254740992.
      assert (0 < 2 ^ (e2 + K)) by (apply Z.pow_pos_nonneg; lia). nia. }
    apply Z.pow_lt_mono_r_iff in Hpow; lia. }
  replace (e2 <=? emax - prec) with true
    by (symmetry; apply Z.leb_le; unfold emax, prec; lia).
  split; lia.
Qed.

End Scaled.

(** A canonical mantissa is its own rounding. *)
Lemma round_canonical (s : bool) (m : positive) (e : Z) :
  bounded prec emax m e = true ->
  binary_round_aux prec emax s (Zpos m) e loc_Exact = S754_finite s m e.
Proof.
  intros H. unfold binary_round_aux.
  rewrite (shr_fexp_canonical m e H).
  cbn [shr_m loc_of_shr_record round_nearest_even].
  rewrite (shr_fexp_canonical m e H). cbn [shr_m].
  apply bounded_inv in H as [_ H].
  replace (e <=? emax - prec) with true; [done |].
  symmetry. apply Z.leb_le. unfold emax, prec. lia.
Qed.

Lemma iter_xO_value (q d : positive) :
  Zpos (Pos.iter xO q d) = Zpos q * 2 ^ Zpos d.
Proof.
  induction d as [|d IH] using Pos.peano_ind.
  - cbn [Pos.iter]. rewrite Pos2Z.inj_xO. lia.
  - rewrite Pos.iter_succ, Pos2Z.inj_xO, IH, Pos2Z.inj_succ,
      Z.pow_succ_r by lia. lia.
Qed.

Lemma iter_xO_digits (q d : positive) :
  Zpos (digits2_pos (Pos.iter xO q d)) = Zpos (digits2_pos q) + Zpos d.
Proof.
  induction d as [|d IH] using Pos.peano_ind.
  - cbn [Pos.iter digits2_pos]. lia.
  - rewrite Pos.iter_succ. cbn [digits2_pos].
    rewrite Pos2Z.inj_succ, IH. lia.
Qed.

(** The literal of a positive integer below 2^53 is exact. *)
Lemma of_Z_positive (q : positive) :
  Zpos q < 2 ^ 53 ->
  ∃ (mz : positive) (ez : Z),
    of_Z (Zpos q) = S754_finite false mz ez
    ∧ -52 <= ez <= 0
    ∧ Zpos mz = Zpos q * 2 ^ (- ez).
Proof.
  intros Hq.
  pose proof (digits2_pos_lower q) as Hlow.
  pose proof (Pos2Z.is_pos (digits2_pos q)) as Hdpos.
  assert (Zpos (digits2_pos q) <= 53) as Hd.
  { assert (2 ^ (Zpos (digits2_pos q) - 1) < 2 ^ 53) as H by lia.
    apply Z.pow_lt_mono_r_iff in H; lia. }
  unfold of_Z, binary_normalize, binary_round, shl_align, fexp,
    SpecFloat.emin, prec, emax.
  replace (Z.max (Zpos (digits2_pos q) + 0 - 53) (3 - 1024 - 53) - 0)
    with (Zpos (digits2_pos q) - 53) by lia.
  replace (Z.max (Zpos (digits2_pos q) + 0 - 53) (3 - 1024 - 53))
    with (Zpos (digits2_pos q) - 53) by lia.
  destruct (Zpos (digits2_pos q) - 53) as [|d|d] eqn:Hsub; [| lia |].
  - exists q, 0. change (binary_round_aux 53 1024)
      with (binary_round_aux prec emax).
    rewrite round_canonical.
    + split; [done |]. split; [lia |]. cbn. lia.
    + unfold bounded, canonical_mantissa, fexp, SpecFloat.emin, prec, emax.
      apply andb_true_intro. split; [apply Z.eqb_eq | apply Z.leb_le]; lia.
  - exists (Pos.iter xO q d), (Zneg d).
    change (binary_round_aux 53 1024) with (binary_round_aux prec emax).
    rewrite round_canonical.
    + split; [done |]. split; [lia |].
      rewrite iter_xO_value. reflexivity.
    + unfold bounded, canonical_mantissa, fexp, SpecFloat.emin, prec, emax.
      rewrite iter_xO_digits.
      apply andb_true_intro. split; [apply Z.eqb_eq | apply Z.leb_le]; lia.
Qed.

Lemma to_integer_of_Z (q : Z) :
  0 <= q < 2 ^ 53 -> to_integer (of_Z q) = Some q.
Proof.
  intros [H0 Hq]. destruct q as [|q|q]; [done | | lia].
  destruct (of_Z_positive q Hq) as (mz & ez & -> & Hez & Hmz).
  unfold to_integer. cbn [cond_Zopp].
  assert (0 < 2 ^ (- ez)) as Hp by (apply Z.pow_pos_nonneg; lia).
  destruct (Z.leb_spec 0 ez).
  - assert (ez = 0) as -> by lia. f_equal. cbn in Hmz. rewrite Hmz. cbn. lia.
  - rewrite Hmz, Z.mod_mul, Z.eqb_refl, Z.div_mul by lia. reflexivity.
Qed.

(** A random value, as an inequality between integers. *)
Lemma random_below_one (m : positive) (e : Z) :
  is_random (S754_finite false m e) ->
  -1074 <= e < 0 ∧ Zpos m * 2 ^ 53 <= (2 ^ 53 - 1) * 2 ^ (- e).
Proof.
  intros (Hv & _ & H1). apply bounded_inv in Hv as [Hc _].
  unfold ltb, SFltb, one in H1. cbn [SFcompare] in H1.
  assert (Zpos m < 9007199254740992) as Hm.
  { pose proof (digits2_pos_bound m) as Hd.
    assert (Zpos (digits2_pos m) <= 53) as Hd53 by lia.
    eapply Z.lt_le_trans; [exact Hd |].
    change 9007199254740992 with (2 ^ 53). apply Z.pow_le_mono_r; lia. }
  change (2 ^ 53) with 9007199254740992.
  destruct (Z.compare_spec e (-52)) as [-> |Hlt|Hgt];
    [| | discriminate H1].
  - rewrite Pos.compare_cont_spec in H1. cbn [Pos.switch_Eq] in H1.
    destruct (Pos.compare_spec m 4503599627370496) as [| Hlt |];
      [discriminate H1 | | discriminate H1].
    split; [split; [discriminate | reflexivity] |].
    assert (Zpos m < 4503599627370496) as Hlt' by exact Hlt.
    assert (2 ^ (- -52) = 4503599627370496) as -> by reflexivity.
    clear - Hlt'. lia.
  - assert (-1074 <= e) as Hmin by (clear - Hc; lia).
    split; [clear - Hmin Hlt; lia |].
    assert (9007199254740992 <= 2 ^ (- e)) as Hp.
    { change 9007199254740992 with (2 ^ 53).
      apply Z.pow_le_mono_r; clear - Hlt; lia. }
    clear - Hm Hp.
    apply Z.le_trans with (9007199254740991 * 9007199254740992).
    + apply Z.mul_le_mono_nonneg_r; lia.
    + apply Z.mul_le_mono_nonneg_l; lia.
Qed.

(** The index computed from a random value and a positive length below
    2^53 is an integer from 0 to the length minus 1. *)
Lemma random_index_in_bounds (random : number) (n : Z) :
  is_random random -> 0 < n < 2 ^ 53 ->
  ∃ z : Z, to_integer (Math_floor (mul random (of_Z n))) = Some z
           ∧ 0 <= z < n.
Proof.
  intros Hr [Hn0 Hn].
  destruct n as [|q|q]; [lia | | lia].
  destruct (of_Z_positive q Hn) as (mn & en & -> & Hen & Hmn).
  destruct random as [s|s| |s m e].
  - exists 0. split; [reflexivity | lia].
  - destruct Hr as (_ & H0 & H1). destruct s; discriminate.
  - destruct Hr as (_ & H0 & _). discriminate H0.
  - destruct s; [destruct Hr as (_ & H0 & _); discriminate H0 |].
    destruct (random_below_one m e Hr) as [He Hm].
    unfold mul, SFmul. cbn [xorb].
    pose proof (round_below 1200 ltac:(lia) (m * mn) (e + en) (Zpos q)
                  ltac:(lia) ltac:(lia) Hn) as Hround.
    assert (0 < 2 ^ (- e)) as Hpe by (apply Z.pow_pos_nonneg; lia).
    assert (0 < 2 ^ (- en)) as Hpen by (apply Z.pow_pos_nonneg; lia).
    assert (0 < 2 ^ (e + en + 1200)) as Hpk by (apply Z.pow_pos_nonneg; lia).
    assert (2 ^ (- e) * 2 ^ (- en) * 2 ^ (e + en + 1200) = 2 ^ 1200) as Hsum.
    { rewrite <- !Z.pow_add_r by lia. f_equal. lia. }
    assert (Zpos (m * mn) * 2 ^ (e + en + 1200) * 2 ^ 53
            <= Zpos q * (2 ^ 53 - 1) * 2 ^ 1200) as Hprod.
    { rewrite Pos2Z.inj_mul, Hmn, <- Hsum.
      clear - Hm Hpe Hpen Hpk.
      set (a := 2 ^ (- e)) in *. set (b := 2 ^ (- en)) in *.
      set (c := 2 ^ (e + en + 1200)) in *.
      replace (Zpos m * (Zpos q * b) * c * 2 ^ 53)
        with ((Zpos m * 2 ^ 53) * (Zpos q * b * c)) by ring.
      replace (Zpos q * (2 ^ 53 - 1) * (a * b * c))
        with (((2 ^ 53 - 1) * a) * (Zpos q * b * c)) by ring.
      apply Z.mul_le_mono_nonneg_r; [| exact Hm].
      apply Z.mul_nonneg_nonneg; [| lia].
      apply Z.mul_nonneg_nonneg; lia. }
    specialize (Hround Hprod). clear Hprod Hsum.
    destruct (binary_round_aux prec emax false (Zpos (m * mn)) (e + en)
                loc_Exact) as [s'|s'| |s' mf ef]; try done.
    + exists 0. split; [reflexivity | lia].
    + destruct s'; [done |]. destruct Hround as [Hef Hval].
      assert (0 < 2 ^ (ef + 1200)) as Hpf by (apply Z.pow_pos_nonneg; lia).
      unfold Math_floor. destruct (Z.leb_spec 0 ef) as [Hge|Hlt].
      * exists (Zpos mf * 2 ^ ef). unfold to_integer. cbn [cond_Zopp].
        destruct (Z.leb_spec 0 ef); [| lia]. split; [reflexivity |].
        assert (0 < 2 ^ ef) by (apply Z.pow_pos_nonneg; lia).
        split; [lia |].
        rewrite Z.pow_add_r, Z.mul_assoc in Hval by lia.
        assert (0 < 2 ^ 1200) as HK by (apply Z.pow_pos_nonneg; lia).
        apply (Z.mul_lt_mono_pos_r (2 ^ 1200)); [exact HK | exact Hval].
      * cbn [cond_Zopp]. rewrite Z.shiftr_div_pow2 by lia.
        assert (0 < 2 ^ (- ef)) as Hpm by (apply Z.pow_pos_nonneg; lia).
        assert (2 ^ (- ef) * 2 ^ (ef + 1200) = 2 ^ 1200) as Hsplit.
        { rewrite <- Z.pow_add_r by lia. f_equal. lia. }
        pose proof (Z.mul_div_le (Zpos mf) (2 ^ (- ef)) Hpm) as Hdiv.
        assert (0 <= Zpos mf / 2 ^ (- ef)) as Hq0
          by (apply Z.div_pos; lia).
        assert (Zpos mf / 2 ^ (- ef) < Zpos q) as Hqn.
        { rewrite <- Hsplit in Hval.
          assert (Zpos mf < Zpos q * 2 ^ (- ef)) as Hlt'.
          { apply (Z.mul_lt_mono_pos_r (2 ^ (ef + 1200))); [exact Hpf |].
            rewrite <- Z.mul_assoc. exact Hval. }
          apply (Z.mul_lt_mono_pos_l (2 ^ (- ef))); [exact Hpm |].
          eapply Z.le_lt_trans; [exact Hdiv |].
          rewrite (Z.mul_comm (2 ^ (- ef))). exact Hlt'. }
        exists (Zpos mf / 2 ^ (- ef)). split; [| lia].
        apply to_integer_of_Z. lia.
Qed.

Lemma select_some (samples : list SoundSample) (random : number) :
  is_random random ->
  samples ≠ [] ->
  Z.of_nat (length samples) < 2 ^ 53 ->
  ∃ (i : nat) (s : SoundSample),
    samples !! i = Some s ∧ select samples random = Some s.
Proof.
  intros Hr Hne Hlen.
  assert (0 < Z.of_nat (length samples)) as Hpos
    by (destruct samples; [done | cbn [length]; lia]).
  destruct (random_index_in_bounds random (Z.of_nat (length samples)) Hr
              (conj Hpos Hlen)) as (z & Hz & Hz0 & Hzn).
  unfold select, array_get, array_length. rewrite Hz.
  destruct (Z.leb_spec 0 z); [| lia].
  destruct (lookup_lt_is_Some_2 samples (Z.to_nat z)) as [s Hs]; [lia |].
  exists (Z.to_nat z), s. by rewrite Hs.
Qed.

(** X15. With at least one sample (and fewer than 2^53), and
    [Math.random()] a binary64 value in [0, 1), the computed index
    [Math.floor(random * length)] is inside the array, rounding of the
    product included: the selection is the element at that index. *)
Theorem sample_selection_in_bounds (samples : list SoundSample)
    (random : number) :
  is_random random ->
  samples ≠ [] ->
  Z.of_nat (length samples) < 2 ^ 53 ->
  ∃ (i : nat) (s : SoundSample),
    (i < length samples)%nat
    ∧ samples !! i = Some s
    ∧ select samples random = Some s.
Proof.
  intros Hr Hne Hlen.
  destruct (select_some samples random Hr Hne Hlen) as (i & s & Hi & Hs).
  exists i, s. split; [| done]. by eapply lookup_lt_Some.
Qed.

Lemma sample_selection_in_bounds_witness :
  is_random one_half
  ∧ demo_samples ≠ []
  ∧ Z.of_nat (length demo_samples) < 2 ^ 53
  ∧ ∃ (i : nat) (s : SoundSample),
      (i < length demo_samples)%nat
      ∧ demo_samples !! i = Some s
      ∧ select demo_samples one_half = Some s.
Proof.
  split; [exact one_half_is_random |]. split; [discriminate |].
  split; [reflexivity |].
  apply (sample_selection_in_bounds demo_samples one_half
           one_half_is_random); [discriminate | reflexivity].
Defined.

(** X16. With such a random value, a non-empty array of samples whose
    starts are finite, and a volume that the element accepts,
    [playSoundSample] does not throw, in any world and for any key. *)
Theorem nonempty_samples_never_throw (this : SoundEffectsPlayer)
    (key : string) (samples : list SoundSample) (volume : option number)
    (random : number) (w : world) :
  is_random random ->
  samples ≠ [] ->
  Z.of_nat (length samples) < 2 ^ 53 ->
  Forall (λ s, is_finite (start s) = true) samples ->
  accepted_volume (default (globalVolume w) volume) ->
  ∃ r : option ref,
    (playSoundSample this key samples volume random w).2 = Returned r.
Proof.
  intros Hr Hne Hlen _ _.
  destruct (select_some samples random Hr Hne Hlen) as (i & s & _ & Hs).
  unfold playSoundSample. fold (lazy_preload this key w).
  fold (select samples random).
  destruct (muted w); [by eexists |].
  destruct (audioCache (lazy_preload this key w) !! key); [| by eexists].
  cbn [allocate]. rewrite Hs. by eexists.
Qed.

Lemma nonempty_samples_never_throw_witness :
  is_random one_half
  ∧ demo_samples ≠ []
  ∧ Z.of_nat (length demo_samples) < 2 ^ 53
  ∧ Forall (λ s, is_finite (start s) = true) demo_samples
  ∧ accepted_volume (default (globalVolume demo_world) None)
  ∧ ∃ r : option ref,
      (playSoundSample demo_player "a" demo_samples None one_half
         demo_world).2 = Returned r.
Proof.
  split; [exact one_half_is_random |]. split; [discriminate |].
  split; [reflexivity |].
  split; [repeat constructor |].
  split; [split; reflexivity |].
  apply (nonempty_samples_never_throw demo_player "a" demo_samples None
           one_half demo_world one_half_is_random);
    [discriminate | reflexivity | repeat constructor | split; reflexivity].
Defined.

(** X17. With such a random value, a non-empty array of samples whose
    starts are finite, not muted, with an element for the key and a
    volume that the element accepts, [playSoundSample] returns a fresh
    instance with the override or global volume and the cursor at the
    start of one of the given samples, the selected one; the one new
    timer is the start of that sample. *)
Theorem playSoundSample_creates_instance (this : SoundEffectsPlayer)
    (key : string) (samples : list SoundSample) (volume : option number)
    (random : number) (w : world) :
  is_random random ->
  samples ≠ [] ->
  Z.of_nat (length samples) < 2 ^ 53 ->
  Forall (λ s, is_finite (start s) = true) samples ->
  muted w = false ->
  has_source this key w = true ->
  accepted_volume (default (globalVolume w) volume) ->
  ∃ (randomSample : SoundSample) (url : string),
    randomSample ∈ samples
    ∧ select samples random = Some randomSample
    ∧ (playSoundSample this key samples volume random w).2
      = Returned (Some (length (store w)))
    ∧ store (playSoundSample this key samples volume random w).1
      = store w ++ [ {| src := url; preload := "auto";
                        volume := default (globalVolume w) volume;
                        loop := false;
                        currentTime := start randomSample;
                        paused := true |} ]
    ∧ timers (playSoundSample this key samples volume random w).1
      = timers w ++ [start_timer (length (store w)) key randomSample].
Proof.
  intros Hr Hne Hlen _ Hm Hs _.
  destruct (select_some samples random Hr Hne Hlen)
    as (i & smp & Hi & Hsel).
  destruct (lazy_preload_finds this key w Hs) as [audio Ha].
  exists smp, (src audio). split; [by eapply list_elem_of_lookup_2 |].
  split; [exact Hsel |].
  unfold playSoundSample. fold (lazy_preload this key w).
  fold (select samples random).
  destruct (lazy_preload_frame this key w)
    as (Hp & Hst & Htm & _).
  injection Hp as Hgv _.
  rewrite Hm, Ha. cbn [allocate]. rewrite Hsel.
  destruct (lazy_preload this key w) as [c gv mu st tm tr rj].
  fields. subst st tm gv. rewrite !alter_last. done.
Qed.

Lemma playSoundSample_creates_instance_witness :
  is_random one_half
  ∧ demo_samples ≠ []
  ∧ Z.of_nat (length demo_samples) < 2 ^ 53
  ∧ Forall (λ s, is_finite (start s) = true) demo_samples
  ∧ muted demo_world = false
  ∧ has_source demo_player "a" demo_world = true
  ∧ accepted_volume (default (globalVolume demo_world) None)
  ∧ ∃ randomSample : SoundSample,
      randomSample ∈ demo_samples
      ∧ (playSoundSample demo_player "a" demo_samples None one_half
           demo_world).2
        = Returned (Some (length (store demo_world))).
Proof.
  split; [exact one_half_is_random |]. split; [discriminate |].
  split; [reflexivity |]. split; [repeat constructor |].
  split; [reflexivity |]. split; [reflexivity |].
  split; [split; reflexivity |].
  destruct (playSoundSample_creates_instance demo_player "a"
              demo_samples None one_half demo_world one_half_is_random)
    as (randomSample & url & Hin & _ & Hres & _);
    [discriminate | reflexivity | repeat constructor | reflexivity
    | reflexivity | split; reflexivity |].
  exists randomSample. split; [exact Hin | exact Hres].
Defined.
